(** * graphql-schema-generator: a shallow embedding of [main.js]

    [main.js] reads a TypeScript file, lowers its type aliases, enums and
    embedded [gql] literals to GraphQL SDL text (the extraction stage), hands
    the text to the [graphql] parser and then rewrites the parsed document
    (reposition [Query], bind the [*Args] helper types to the fields of
    [Mutation] and [Query], prune the helpers).

    The file [src/main.js] holds two revisions of the script one after the
    other.  The lowering functions are the same in both; the rewrite pass
    differs, and is embedded twice, as [Copy1] (lines 82-120) and [Copy2]
    (lines 342-393).

    Modelling conventions
    - JavaScript strings are [string]; names are taken to be ASCII, which is
      what the GraphQL grammar allows for names.
    - A JavaScript exception is the [Throw] case of [Completion]; code that
      can raise runs in that monad.
    - Babel and graphql-js nodes are inductive types holding the properties
      the script reads.  A property that may be absent is an [option].
    - The definitions array is a [list]; the objects the script mutates in
      place ([t.kind = ...], [field.arguments = ...]) are updated at their
      index, and every later lookup sees the updated list.  After
      [field.arguments = helper.fields] the two properties hold the same
      array; the script never writes to a field of a helper afterwards (it
      only writes to fields of the definitions found under the names
      [Query] and [Mutation], and no helper has such a name), so the shared
      array is modelled by its value.
    - Every definition of a document has a name, as the type definitions of
      a schema have; a document with a [schema { ... }] block or an
      anonymous operation is outside the model. *)

From Stdlib Require Import Ascii String.
From stdpp Require Import base option list strings gmap.

Set Warnings "-register-all".

(** ** Completions *)

Inductive Exception :=
  | TypeError            (* property read on [undefined] *)
  | NoDefinitionsFound   (* [new Error('No GraphQL type definitions found in the file.')] *)
  | GraphQLError.        (* syntax error raised by [parse] *)

Inductive Completion (A : Type) :=
  | Return (a : A)
  | Throw (e : Exception).
Arguments Return {A} a.
Arguments Throw {A} e.

(** Sequencing: a throw aborts what follows.  With these instances stdpp's
    [x ← c; k] reads as [const x = c; k], and [mapM f xs] as [xs.map(f)]
    for an [f] that may throw (left to right, stopping at the first throw). *)
#[export] Instance Completion_bind : MBind Completion := fun A B k c =>
  match c with
  | Return a => k a
  | Throw e => Throw e
  end.
#[export] Instance Completion_ret : MRet Completion := fun A a => Return a.

(** [xs.forEach(x => body)] over a threaded state. *)
Fixpoint forEach {A S} (body : S -> A -> Completion S) (xs : list A) (s : S)
  : Completion S :=
  match xs with
  | [] => Return s
  | x :: xs' => s' ← body s x; forEach body xs' s'
  end.

(** ** JavaScript strings *)

Definition is_upper (c : ascii) : bool :=
  let n := nat_of_ascii c in (65 <=? n)%nat && (n <=? 90)%nat.
Definition is_lower (c : ascii) : bool :=
  let n := nat_of_ascii c in (97 <=? n)%nat && (n <=? 122)%nat.

Definition lower_ascii (c : ascii) : ascii :=
  if is_upper c then ascii_of_nat (nat_of_ascii c + 32) else c.
Definition upper_ascii (c : ascii) : ascii :=
  if is_lower c then ascii_of_nat (nat_of_ascii c - 32) else c.

Fixpoint map_string (f : ascii -> ascii) (s : string) : string :=
  match s with
  | EmptyString => EmptyString
  | String c s' => String (f c) (map_string f s')
  end.

(** [s.toLowerCase()] and [s.toUpperCase()] on ASCII strings: the built-ins
    map the letters a-z and A-Z onto each other and leave every other ASCII
    character alone.  On a character outside ASCII the built-ins follow the
    Unicode case mappings, which these definitions do not: the statements
    about a case-mapped string are stated for [ascii_only] strings. *)
Definition toLowerCase : string -> string := map_string lower_ascii.
Definition toUpperCase : string -> string := map_string upper_ascii.

(** [s.startsWith(p)] *)
Definition startsWith (s p : string) : bool := String.prefix p s.

(** [s.endsWith(p)] *)
Definition endsWith (s p : string) : bool :=
  (String.length p <=? String.length s)%nat &&
  String.eqb (String.substring (String.length s - String.length p) (String.length p) s) p.

(** [xs.join(sep)] on an array of strings *)
Definition join (sep : string) (xs : list string) : string := String.concat sep xs.

(** ** Values a lowering function can return *)

(** Babel nodes that occur as keys, literals and type names. *)
Inductive Expression :=
  | Identifier (name : string)
  | StringLiteral (value : string)
  | NumericLiteral (value : N)
  | BooleanLiteral (value : bool)
  | TSQualifiedName (left : Expression) (right : string).

Inductive JSValue :=
  | JSString (s : string)
  | JSUndefined
  | JSObject (node : Expression).

(** String conversion as done by [+] and by template literals. *)
Definition ToString (v : JSValue) : string :=
  match v with
  | JSString s => s
  | JSUndefined => "undefined"
  | JSObject _ => "[object Object]"
  end.

(** [node.name] *)
Definition node_name (e : Expression) : JSValue :=
  match e with
  | Identifier name => JSString name
  | _ => JSUndefined
  end.

(** [v === 'lit'] *)
Definition strict_eq_string (v : JSValue) (lit : string) : bool :=
  match v with
  | JSString s => String.eqb s lit
  | _ => false
  end.

(** ** The TypeScript type AST (Babel) *)

Inductive TSType :=
  | TSStringKeyword
  | TSNumberKeyword
  | TSBooleanKeyword
  | TSAnyKeyword
  | TSNullKeyword
  | TSUndefinedKeyword
  | TSVoidKeyword
  | TSNeverKeyword
  | TSUnknownKeyword
  | TSTypeLiteral (members : list TSTypeElement)
  | TSTypeReference (typeName : Expression) (typeParameters : option (list TSType))
  | TSIndexedAccessType (objectType indexType : TSType)
  | TSLiteralType (literal : Expression)
  | TSIntersectionType (types : list TSType)
  | TSUnionType (types : list TSType)
  | TSArrayType (elementType : TSType)
with TSTypeElement :=
  (* [typeAnnotation] stands for [member.typeAnnotation.typeAnnotation];
     [None] is a member without annotation *)
  | TSPropertySignature (key : option Expression) (typeAnnotation : option TSType)
                        (optional : bool)
  | TSMethodSignature (key : Expression) (typeAnnotation : option TSType)
  | TSIndexSignature (typeAnnotation : option TSType)
  | TSCallSignatureDeclaration (typeAnnotation : option TSType).

(** [t.typeName]: only a [TSTypeReference] has the property. *)
Definition typeName_of (t : TSType) : option Expression :=
  match t with
  | TSTypeReference typeName _ => Some typeName
  | _ => None
  end.

(** [member.key] *)
Definition key_of (m : TSTypeElement) : option Expression :=
  match m with
  | TSPropertySignature key _ _ => key
  | TSMethodSignature key _ => Some key
  | TSIndexSignature _ => None
  | TSCallSignatureDeclaration _ => None
  end.

(** ** generateType (lines 206-254 and 483-531) *)

(** [scalarType.type === 'TSLiteralType' && scalarType.literal.type === 'StringLiteral'] *)
Definition string_literal_type (t : TSType) : option string :=
  match t with
  | TSLiteralType (StringLiteral value) => Some value
  | _ => None
  end.

Fixpoint generateType (typeAnnotation : TSType) : Completion JSValue :=
  match typeAnnotation with
  | TSStringKeyword | TSTypeLiteral _ => Return (JSString "String")
  | TSNumberKeyword => Return (JSString "Int")
  | TSBooleanKeyword => Return (JSString "Boolean")
  | TSTypeReference typeName typeParameters =>
      if strict_eq_string (node_name typeName) "Scalars" then
        match typeParameters with
        | Some (scalarType :: _) =>
            match string_literal_type scalarType with
            | Some value => Return (JSString value)
            | None => Return (JSString "Unknown")
            end
        | _ => Return (JSString "Unknown")
        end
      else if strict_eq_string (node_name typeName) "Maybe" then
        match typeParameters with
        | None => Throw TypeError              (* [undefined.params] *)
        | Some [] => Return (JSString "Unknown")
        | Some (p0 :: _) => generateType p0
        end
      else if strict_eq_string (node_name typeName) "Array" then
        match typeParameters with
        | None => Throw TypeError              (* [undefined.params] *)
        | Some [] => Return (JSString "Unknown")
        | Some (p0 :: _) =>
            t ← generateType p0; Return (JSString ("[" +:+ ToString t +:+ "]"))
        end
      else Return (node_name typeName)
  | TSIndexedAccessType objectType indexType =>
      match typeName_of objectType with
      | None => Throw TypeError                (* [undefined.name] *)
      | Some typeName =>
          if strict_eq_string (node_name typeName) "Scalars" then
            match string_literal_type indexType with
            | Some value => Return (JSString value)
            | None => Return (JSString "Unknown")
            end
          else Return (JSObject typeName)
      end
  | TSAnyKeyword => Return (JSString "String")
  | _ => Return (JSString "Unknown")
  end.

(** ** generateMember (lines 196-204 and 472-480) *)

Definition generateMember (member : TSTypeElement) : Completion string :=
  match member with
  | TSPropertySignature (Some key) (Some typeAnnotation) optional =>
      type ← generateType typeAnnotation;
      let optional := if optional then "" else "!" in
      Return ("  " +:+ ToString (node_name key) +:+ ": " +:+ ToString type +:+ optional)
  | _ => Return ""
  end.

(** ** Declaration lowering (lines 143-194 and 419-469) *)

Definition LF : string := String (ascii_of_nat 10) EmptyString.

(** How [join] renders an element: [undefined] becomes the empty string. *)
Definition join_item (v : JSValue) : string :=
  match v with
  | JSUndefined => ""
  | _ => ToString v
  end.

(** [member.key.name] *)
Definition member_key_name (member : TSTypeElement) : Completion JSValue :=
  match key_of member with
  | Some key => Return (node_name key)
  | None => Throw TypeError
  end.

Definition generateScalarsDefinition (typeAnnotation : TSType) : Completion string :=
  match typeAnnotation with
  | TSTypeLiteral members =>
      if (0 <? length members)%nat then
        names ← mapM member_key_name members;
        Return ("scalar " +:+ join (LF +:+ " scalar ") (join_item <$> names) +:+ LF)
      else Return ""
  | _ => Return ""
  end.

(** [types.find(t => t.type === 'TSTypeLiteral')], reduced to its members *)
Fixpoint find_type_literal (types : list TSType) : option (list TSTypeElement) :=
  match types with
  | [] => None
  | TSTypeLiteral members :: _ => Some members
  | _ :: types' => find_type_literal types'
  end.

Definition generateArgumentsDefinition (typeAnnotation : TSType) : Completion string :=
  match typeAnnotation with
  | TSTypeLiteral members =>
      if (0 <? length members)%nat then
        ms ← mapM generateMember members;
        Return ("(" +:+ join ", " ms +:+ ")")
      else Return ""
  | TSIntersectionType types =>
      match find_type_literal types with
      | Some members =>
          if (0 <? length members)%nat then
            ms ← mapM generateMember members;
            Return ("(n" +:+ join ", " ms +:+ ")")
          else Return ""
      | None => Return ""
      end
  | _ => Return ""
  end.

Definition generateTypeScriptDefinition (typeAnnotation : TSType) : Completion string :=
  match typeAnnotation with
  | TSTypeLiteral members =>
      if (0 <? length members)%nat then
        ms ← mapM generateMember members;
        Return ("{" +:+ LF +:+ join LF ms +:+ LF +:+ "}")
      else Return ""
  | TSIntersectionType types =>
      match find_type_literal types with
      | Some members =>
          if (0 <? length members)%nat then
            ms ← mapM generateMember members;
            Return ("{" +:+ LF +:+ join LF ms +:+ LF +:+ "}")
          else Return ""
      | None => Return ""
      end
  | _ => Return ""
  end.

(** ** The extraction stage (lines 35-76 and 292-336) *)

(** The nodes the traversal has a visitor for, in visiting order. *)
Inductive Node :=
  (* [quasis] holds the [value.cooked] of each quasi, [None] for [undefined] *)
  | TaggedTemplateExpression (tag : Expression) (quasis : list (option string))
  | TSTypeAliasDeclaration (id : string) (typeAnnotation : TSType)
  (* [members] holds the [id] of each enum member *)
  | TSEnumDeclaration (id : string) (members : list Expression).

(** [typeDefs] and the module-level object [mutationArgs]. *)
Record ExtractState := {
  typeDefs : string;
  mutationArgs : gmap string string
}.

Definition append_typeDefs (st : ExtractState) (fragment : string) : ExtractState :=
  {| typeDefs := typeDefs st +:+ fragment; mutationArgs := mutationArgs st |}.

Definition is_Identifier (e : Expression) : bool :=
  match e with Identifier _ => true | _ => false end.

(** [member.id.name.toUpperCase()] *)
Definition enum_member_name (id : Expression) : Completion string :=
  match node_name id with
  | JSString name => Return (toUpperCase name)
  | _ => Throw TypeError
  end.

Definition visit (st : ExtractState) (node : Node) : Completion ExtractState :=
  match node with
  | TaggedTemplateExpression tag quasis =>
      if strict_eq_string (node_name tag) "gql"
         || (is_Identifier tag && strict_eq_string (node_name tag) "graphql")
      then Return (append_typeDefs st (join "" (default "" <$> quasis) +:+ LF))
      else Return st
  | TSTypeAliasDeclaration id typeAnnotation =>
      st ← (if startsWith id "Mutation" && endsWith id "Args" then
              args ← generateArgumentsDefinition typeAnnotation;
              Return {| typeDefs := typeDefs st;
                        mutationArgs := <[id := args]> (mutationArgs st) |}
            else Return st);
      if String.eqb id "Scalars" then
        fragment ← generateScalarsDefinition typeAnnotation;
        Return (append_typeDefs st fragment)
      else
        typeDefinition ← generateTypeScriptDefinition typeAnnotation;
        if String.eqb typeDefinition "" then Return st
        else Return (append_typeDefs st ("type " +:+ id +:+ " " +:+ typeDefinition +:+ LF))
  | TSEnumDeclaration id members =>
      names ← mapM enum_member_name members;
      Return (append_typeDefs st
                ("enum " +:+ id +:+ " {" +:+ LF +:+ join ", " names +:+ LF +:+ "}" +:+ LF))
  end.

Definition initial_state : ExtractState := {| typeDefs := ""; mutationArgs := ∅ |}.

(** [traverse(ast, visitors)] *)
Definition extract (ast : list Node) : Completion ExtractState :=
  forEach visit ast initial_state.

(** ** The schema document (graphql-js nodes) *)

Inductive TypeNode :=
  | NamedType (name : string)
  | ListType (type : TypeNode)
  | NonNullType (type : TypeNode).

(** A field definition.  An entry of an argument list has the same shape
    (the script stores field definitions into [arguments]); an input value
    is a field with no arguments of its own. *)
Inductive FieldDefinition := {
  fname : string;                           (* [field.name.value] *)
  farguments : list FieldDefinition;        (* [field.arguments] *)
  ftype : TypeNode                          (* [field.type] *)
}.

Inductive Kind :=
  | ObjectTypeDefinition
  | InputObjectTypeDefinition
  | ScalarTypeDefinition
  | EnumTypeDefinition
  | InterfaceTypeDefinition
  | UnionTypeDefinition.

#[export] Instance Kind_eq_dec : EqDecision Kind.
Proof. solve_decision. Defined.

(** A top-level definition; [fields] is empty for kinds without fields. *)
Record DefinitionNode := {
  kind : Kind;
  name : string;                            (* [def.name.value] *)
  fields : list FieldDefinition
}.

Definition set_kind (k : Kind) (def : DefinitionNode) : DefinitionNode :=
  {| kind := k; name := name def; fields := fields def |}.

Definition set_arguments (args : list FieldDefinition) (field : FieldDefinition)
  : FieldDefinition :=
  {| fname := fname field; farguments := args; ftype := ftype field |}.

(** [def.fields[j].arguments = args] *)
Definition set_field_arguments (j : nat) (args : list FieldDefinition)
    (def : DefinitionNode) : DefinitionNode :=
  {| kind := kind def; name := name def;
     fields := alter (set_arguments args) j (fields def) |}.

(** [t.type] and [t.name.value] of a type node, when the property exists *)
Definition type_type (t : TypeNode) : option TypeNode :=
  match t with
  | NamedType _ => None
  | ListType type | NonNullType type => Some type
  end.
Definition type_name_value (t : TypeNode) : option string :=
  match t with
  | NamedType name => Some name
  | _ => None
  end.

(** [xs.findIndex(p)]; [None] stands for [-1].  [xs.find(p)] is the element
    at that index. *)
Fixpoint findIndex {A} (p : A -> bool) (xs : list A) : option nat :=
  match xs with
  | [] => None
  | x :: xs' => if p x then Some 0 else S <$> findIndex p xs'
  end.

(** [findIndex] with a predicate that may throw; the throw leaves the scan. *)
Fixpoint findIndexM {A} (p : A -> Completion bool) (xs : list A)
  : Completion (option nat) :=
  match xs with
  | [] => Return None
  | x :: xs' =>
      b ← p x;
      if b : bool then Return (Some 0%nat)
      else r ← findIndexM p xs'; Return (fmap (M:=option) S r)
  end.

(** [def.kind === 'ObjectTypeDefinition' && def.name.value === n] *)
Definition is_object_named (n : string) (def : DefinitionNode) : bool :=
  bool_decide (kind def = ObjectTypeDefinition) && String.eqb (name def) n.

(** ** Regular expressions of the prune stage *)

Definition is_line_terminator (c : ascii) : bool :=
  (nat_of_ascii c =? 10)%nat || (nat_of_ascii c =? 13)%nat.

Fixpoint strip_prefix (p s : string) : option string :=
  match p with
  | EmptyString => Some s
  | String a p' =>
      match s with
      | String b s' => if Ascii.eqb a b then strip_prefix p' s' else None
      | EmptyString => None
      end
  end.

(** [.*b] matched at the start of [s] *)
Fixpoint match_dot_star (b s : string) : bool :=
  String.prefix b s ||
  match s with
  | EmptyString => false
  | String c s' => negb (is_line_terminator c) && match_dot_star b s'
  end.

(** [/a.*b/.test(s)], a match starting anywhere in [s] *)
Fixpoint regex_test (a b s : string) : bool :=
  match strip_prefix a s with
  | Some rest => match_dot_star b rest
  | None => false
  end ||
  match s with
  | EmptyString => false
  | String _ s' => regex_test a b s'
  end.

(** ** The rewrite pass *)

(** Lines 82-87 and 342-347: move the first object type named [Query] to
    the end ([splice] then [push]). *)
Definition reposition (definitions : list DefinitionNode) : list DefinitionNode :=
  match findIndex (is_object_named "Query") definitions with
  | Some queryIndex =>
      match definitions !! queryIndex with
      | Some queryDef => delete queryIndex definitions ++ [queryDef]
      | None => definitions
      end
  | None => definitions
  end.

(** The helper lookup of a binding pass, for the operation type [op]:
    [definitions.find(def => def.kind === 'ObjectTypeDefinition' &&
       def.name.value.toLowerCase() === `${op}${field.name.value}Args`.toLowerCase())] *)
Definition find_args (op : string) (field : FieldDefinition)
    (definitions : list DefinitionNode) : option nat :=
  findIndex (fun def =>
      bool_decide (kind def = ObjectTypeDefinition) &&
      String.eqb (toLowerCase (name def)) (toLowerCase (op +:+ fname field +:+ "Args")))
    definitions.

Section BindPass.
(** What a pass does with each argument field of a bound helper
    ([mutationArg.fields.forEach(arg => ...)]); it differs between the
    passes, see [Copy1] and [Copy2]. *)
Variable change_argument_type :
  list DefinitionNode -> FieldDefinition -> Completion (list DefinitionNode).

(** The body of [op.fields.forEach(field => ...)] for the field at index
    [j] of the definition at index [oi]. *)
Definition bind_field (op : string) (oi : nat) (definitions : list DefinitionNode)
    (jfield : nat * FieldDefinition) : Completion (list DefinitionNode) :=
  let '(j, field) := jfield in
  match find_args op field definitions with
  | Some ai =>
      let args := from_option fields [] (definitions !! ai) in
      (* [field.arguments = mutationArg.fields] *)
      let definitions := alter (set_field_arguments j args) oi definitions in
      forEach change_argument_type args definitions
  | None => Return definitions
  end.

(** [const op = definitions.find(...); if (op) { op.fields.forEach(...) }] *)
Definition bind_pass (op : string) (definitions : list DefinitionNode)
  : Completion (list DefinitionNode) :=
  match findIndex (is_object_named op) definitions with
  | Some oi =>
      let op_fields := from_option fields [] (definitions !! oi) in
      forEach (bind_field op oi) (imap pair op_fields) definitions
  | None => Return definitions
  end.
End BindPass.

Definition InputObject : DefinitionNode -> DefinitionNode :=
  set_kind InputObjectTypeDefinition.

(** The first revision, lines 82-120. *)
Module Copy1.

(** [arg.type.type.name.value] *)
Definition arg_type_type_name_value (arg : FieldDefinition) : Completion string :=
  match type_type (ftype arg) with
  | None => Throw TypeError
  | Some type =>
      match type_name_value type with
      | None => Throw TypeError
      | Some value => Return value
      end
  end.

(** Lines 96-101.  The right operand of [&&] is only evaluated, and can
    only throw, at a definition that is an object type. *)
Definition change_argument_type (definitions : list DefinitionNode)
    (arg : FieldDefinition) : Completion (list DefinitionNode) :=
  t ← findIndexM (fun def =>
         if bool_decide (kind def = ObjectTypeDefinition) then
           value ← arg_type_type_name_value arg;
           Return (String.eqb (name def) value)
         else Return false) definitions;
  match t with
  | Some i => Return (alter InputObject i definitions)
  | None => Return definitions
  end.

(** Lines 108-114: the helper is bound, no type is changed. *)
Definition keep_argument_type (definitions : list DefinitionNode)
    (arg : FieldDefinition) : Completion (list DefinitionNode) :=
  Return definitions.

Definition pruned (d : DefinitionNode) : bool :=
  regex_test "Mutation" "Arg" (name d) || regex_test "Query" "Arg" (name d).

(** Line 119 *)
Definition prune (definitions : list DefinitionNode) : list DefinitionNode :=
  List.filter (fun d => negb (regex_test "Query" "Arg" (name d)))
    (List.filter (fun d => negb (regex_test "Mutation" "Arg" (name d))) definitions).

Definition rewrite (parsed : list DefinitionNode) : Completion (list DefinitionNode) :=
  let definitions := reposition parsed in
  definitions ← bind_pass change_argument_type "Mutation" definitions;
  definitions ← bind_pass keep_argument_type "Query" definitions;
  Return (prune definitions).

End Copy1.

(** The second revision, lines 342-393. *)
Module Copy2.

(** Lines 358-363 and 377-382. *)
Definition change_argument_type (definitions : list DefinitionNode)
    (arg : FieldDefinition) : Completion (list DefinitionNode) :=
  let t := findIndex (fun def =>
      bool_decide (kind def = ObjectTypeDefinition) &&
      match type_type (ftype arg) with
      | Some type =>
          match type_name_value type with
          | Some value => String.eqb (name def) value
          | None => false
          end
      | None => false
      end) definitions in
  match t with
  | Some i => Return (alter InputObject i definitions)
  | None => Return definitions
  end.

Definition pruned (d : DefinitionNode) : bool :=
  regex_test "Mutation" "Args" (name d) || regex_test "Query" "Args" (name d).

(** Line 392 *)
Definition prune (definitions : list DefinitionNode) : list DefinitionNode :=
  List.filter (fun def => negb (regex_test "Mutation" "Args" (name def))
                          && negb (regex_test "Query" "Args" (name def))) definitions.

Definition rewrite (parsed : list DefinitionNode) : Completion (list DefinitionNode) :=
  let definitions := reposition parsed in
  definitions ← bind_pass change_argument_type "Query" definitions;
  definitions ← bind_pass change_argument_type "Mutation" definitions;
  Return (prune definitions).

End Copy2.

(** ** The pipeline (lines 22-141 and 279-416) *)

(** What a run asks of its environment.  [fs.writeFile] is asynchronous:
    the request carries its callback, which the file system calls with
    [writeErr] set ([true]) when the write failed and unset otherwise. *)
Inductive Effect :=
  | console_error (e : Exception)
      (* [console.error('Error parsing or extracting GraphQL types:', parseError)] *)
  | console_error_writeErr
      (* [console.error('Error writing file:', writeErr)] *)
  | writeFile (path data : string) (callback : bool -> list Effect)
  | console_log (data : string).

(** The callback handed to [fs.writeFile] (lines 127-133 and 402-408). *)
Definition writeFile_callback (outputFilePath : string) (writeErr : bool)
  : list Effect :=
  if writeErr then [console_error_writeErr]
  else [console_log ("GraphQL schema successfully regenerated at: " +:+ outputFilePath)].

Section Pipeline.
(** The collaborators: [parse] and [print] of graphql-js ([None] is a
    syntax error), and one of the two rewrite passes. *)
Variable parse : string -> option (list DefinitionNode).
Variable print : list DefinitionNode -> string.
Variable rewrite : list DefinitionNode -> Completion (list DefinitionNode).

Definition parse_or_throw (text : string) : Completion (list DefinitionNode) :=
  match parse text with
  | Some parsedAST => Return parsedAST
  | None => Throw GraphQLError
  end.

(** The body of the [try] block up to [print]. *)
Definition transform (ast : list Node) : Completion string :=
  st ← extract ast;
  if String.eqb (typeDefs st) "" then Throw NoDefinitionsFound
  else
    parsedAST ← parse_or_throw (typeDefs st);
    definitions ← rewrite parsedAST;
    Return (print definitions).

(** The callback of [fs.readFile] on the parsed source.  [outputFilePath]
    is tested for truthiness: [null] ([None]) and the empty string both
    send the schema to the console. *)
Definition main (outputFilePath : option string) (ast : list Node) : list Effect :=
  match transform ast with
  | Return schemaString =>
      match outputFilePath with
      | Some path =>
          if String.eqb path "" then [console_log schemaString]
          else [writeFile path schemaString (writeFile_callback path)]
      | None => [console_log schemaString]
      end
  | Throw parseError => [console_error parseError]
  end.
End Pipeline.

(** ** Vocabulary of the statements *)

(** The node kinds [generateType] has a [case] for. *)
Definition has_case (t : TSType) : bool :=
  match t with
  | TSStringKeyword | TSTypeLiteral _ | TSNumberKeyword | TSBooleanKeyword
  | TSTypeReference _ _ | TSIndexedAccessType _ _ | TSAnyKeyword => true
  | _ => false
  end.

(** The shapes on which [generateType] reads no property of [undefined]:
    a [Maybe] or [Array] reference carries a type-argument list (and so
    does what it wraps), an indexed access has a type reference as object
    type. *)
Fixpoint reads_defined (t : TSType) : bool :=
  match t with
  | TSTypeReference typeName typeParameters =>
      if strict_eq_string (node_name typeName) "Scalars" then true
      else if strict_eq_string (node_name typeName) "Maybe"
              || strict_eq_string (node_name typeName) "Array" then
        match typeParameters with
        | None => false
        | Some [] => true
        | Some (p0 :: _) => reads_defined p0
        end
      else true
  | TSIndexedAccessType objectType _ =>
      match typeName_of objectType with
      | Some _ => true
      | None => false
      end
  | _ => true
  end.

(** [member.typeAnnotation] *)
Definition annotation_of (m : TSTypeElement) : option TSType :=
  match m with
  | TSPropertySignature _ typeAnnotation _ => typeAnnotation
  | TSMethodSignature _ typeAnnotation => typeAnnotation
  | TSIndexSignature typeAnnotation => typeAnnotation
  | TSCallSignatureDeclaration typeAnnotation => typeAnnotation
  end.

Fixpoint string_forallb (p : ascii -> bool) (s : string) : bool :=
  match s with
  | EmptyString => true
  | String c s' => p c && string_forallb p s'
  end.

(** [s] contains [a], and later on the same line [b]. *)
Definition occurs_then (a b s : string) : Prop :=
  exists x y z, s = x +:+ a +:+ y +:+ b +:+ z
                /\ string_forallb (fun c => negb (is_line_terminator c)) y = true.

(** The letters, digits and underscore of a GraphQL name. *)
Definition is_name_char (c : ascii) : bool :=
  is_upper c || is_lower c
  || ((48 <=? nat_of_ascii c)%nat && (nat_of_ascii c <=? 57)%nat)
  || (nat_of_ascii c =? 95)%nat.

(** A whole name of the form [<op><Identifier>Args]. *)
Definition helper_name (op s : string) : Prop :=
  exists id, string_forallb is_name_char id = true /\ s = op +:+ id +:+ "Args".

(** The completion throws nothing but a [TypeError]. *)
Definition throws_only_TypeError {A} (c : Completion A) : Prop :=
  forall e, c = Throw e -> e = TypeError.

(** ** Vocabulary of the rewrite pass *)

(** [arg.type.type.name.value], when every property on the way exists:
    the name directly under one list or non-null wrapper. *)
Definition wrapped_name (t : TypeNode) : option string :=
  type_type t ≫= type_name_value.

(** Some field of some definition is declared with [n] under one wrapper. *)
Definition referenced (n : string) (definitions : list DefinitionNode) : Prop :=
  exists def arg, def ∈ definitions /\ arg ∈ fields def
                  /\ wrapped_name (ftype arg) = Some n.

(** [const t = definitions.find(object type named n); if (t) t.kind = ...] *)
Definition reclassify (n : string) (definitions : list DefinitionNode)
  : list DefinitionNode :=
  match findIndex (is_object_named n) definitions with
  | Some i => alter InputObject i definitions
  | None => definitions
  end.

(** What an argument handler may do: nothing, or reclassify the name under
    the wrapper of the argument's type. *)
Definition handler_ok
    (change : list DefinitionNode -> FieldDefinition -> Completion (list DefinitionNode))
  : Prop :=
  forall ds arg ds', change ds arg = Return ds' ->
    ds' = ds \/ exists n, wrapped_name (ftype arg) = Some n /\ ds' = reclassify n ds.

(** A handler that does reclassify whenever the argument's type has a name
    under one wrapper. *)
Definition handler_reclassifies
    (change : list DefinitionNode -> FieldDefinition -> Completion (list DefinitionNode))
  : Prop :=
  forall ds arg ds' n, change ds arg = Return ds' ->
    wrapped_name (ftype arg) = Some n -> ds' = reclassify n ds.

(** The in-place updates of the binding passes, as steps on the array. *)
Inductive update (ds : list DefinitionNode) : list DefinitionNode -> Prop :=
  | update_kind n :
      referenced n ds -> update ds (reclassify n ds)
  | update_arguments oi o j args :
      ds !! oi = Some o -> name o = "Query" \/ name o = "Mutation" ->
      update ds (alter (set_field_arguments j args) oi ds).

Definition same_signature (f f' : FieldDefinition) : Prop :=
  fname f' = fname f /\ ftype f' = ftype f.

(** How one definition can differ after some updates: the name stays, the
    kind can go from object to input when the name is one of [N], and only
    [Query] and [Mutation] get new argument lists on their fields. *)
Definition evolves (N : string -> Prop) (x x' : DefinitionNode) : Prop :=
  name x' = name x
  /\ (kind x' = kind x
      \/ (kind x = ObjectTypeDefinition /\ kind x' = InputObjectTypeDefinition
          /\ N (name x)))
  /\ (fields x' = fields x
      \/ ((name x = "Query" \/ name x = "Mutation")
          /\ Forall2 same_signature (fields x) (fields x'))).

Definition Evolves (ds ds' : list DefinitionNode) : Prop :=
  Forall2 (evolves (fun n => referenced n ds)) ds ds'.

(** Among the definitions of one name, the object types reclassified so far
    come first. *)
Definition reclassified_first (ds0 ds : list DefinitionNode) : Prop :=
  forall i j x y z,
    ds0 !! i = Some x -> ds !! i = Some y ->
    kind x = ObjectTypeDefinition -> kind y <> ObjectTypeDefinition ->
    (j < i)%nat -> ds !! j = Some z -> name z = name x ->
    kind z <> ObjectTypeDefinition.

Definition at_most_one {A} (p : A -> bool) (l : list A) : Prop :=
  forall i j x y, l !! i = Some x -> l !! j = Some y ->
                  p x = true -> p y = true -> i = j.

(** A name that a binding pass for [op] can take for a helper: equal to
    [<op><field>Args] up to letter case. *)
Definition helper_like (op : string) (def : DefinitionNode) : Prop :=
  exists f, toLowerCase (name def) = toLowerCase (op +:+ f +:+ "Args").

(** [referenced], decided. *)
Definition referencedb (n : string) (definitions : list DefinitionNode) : bool :=
  existsb (fun def =>
      existsb (fun arg =>
          match wrapped_name (ftype arg) with
          | Some m => String.eqb m n
          | None => false
          end) (fields def)) definitions.

(** ** Documents used in the examples *)

Definition plain_field (f : string) (t : TypeNode) : FieldDefinition :=
  {| fname := f; farguments := []; ftype := t |}.

Definition object_type (n : string) (fs : list FieldDefinition) : DefinitionNode :=
  {| kind := ObjectTypeDefinition; name := n; fields := fs |}.

(** [type Address { street: String }] *)
Definition Address_type : DefinitionNode :=
  object_type "Address" [plain_field "street" (NamedType "String")].

(** [type Query { getUser: User }], [Address] and the helper
    [type QuerygetUserArgs { addr: t }] *)
Definition getUser_document (t : TypeNode) : list DefinitionNode :=
  [object_type "Query" [plain_field "getUser" (NamedType "User")];
   Address_type;
   object_type "QuerygetUserArgs" [plain_field "addr" t]].

(** [Query.getUser] with the helper's field as its argument *)
Definition getUser_bound (t : TypeNode) : DefinitionNode :=
  object_type "Query"
    [{| fname := "getUser"; farguments := [plain_field "addr" t];
        ftype := NamedType "User" |}].

(** Three object types without fields, [Mutation] first *)
Definition Mutation_first_document : list DefinitionNode :=
  [object_type "Mutation" []; object_type "Query" []; object_type "User" []].

(** Two object types named [Query] *)
Definition two_Query_document : list DefinitionNode :=
  [object_type "Query" [plain_field "a" (NamedType "Int")];
   object_type "Query" [plain_field "b" (NamedType "Int")]].

(** [type Query { user: User }], [type User { id: ID! }] and the helper
    [type QueryuserArgs { id: ID! }], before and after a run *)
Definition user_document : list DefinitionNode :=
  [object_type "Query" [plain_field "user" (NamedType "User")];
   object_type "User" [plain_field "id" (NonNullType (NamedType "ID"))];
   object_type "QueryuserArgs" [plain_field "id" (NonNullType (NamedType "ID"))]].

Definition user_document_rewritten : list DefinitionNode :=
  [object_type "User" [plain_field "id" (NonNullType (NamedType "ID"))];
   object_type "Query"
     [{| fname := "user";
         farguments := [plain_field "id" (NonNullType (NamedType "ID"))];
         ftype := NamedType "User" |}]].

(** [type MutationFooArgs = { id: string }] and its [Query] twin *)
Definition id_string_shape : TSType :=
  TSTypeLiteral [TSPropertySignature (Some (Identifier "id")) (Some TSStringKeyword) false].

(** ** The command line (lines 8-18 and 263-274) *)

(** [args[i]] where the script tests it for truthiness: an absent element
    and the empty string count as missing. *)
Definition truthy_arg (args : list string) (i : nat) : option string :=
  match args !! i with
  | Some v => if String.eqb v "" then None else Some v
  | None => None
  end.

(** How the script starts: it prints the usage error and exits with code 1,
    or goes on with the two paths ([None] is [null]: print to the console). *)
Inductive Startup :=
  | UsageError
  | Started (inputFilePath : string) (outputFilePath : option string).

Section CommandLine.
(** [path.resolve] *)
Variable resolve : string -> string.

Definition startup (args : list string) : Startup :=
  let inputFileArgIndex := findIndex (fun arg => String.eqb arg "-i") args in
  let outputFileArgIndex := findIndex (fun arg => String.eqb arg "-o") args in
  match inputFileArgIndex with
  | None => UsageError
  | Some i =>
      match truthy_arg args (i + 1) with
      | None => UsageError
      | Some input =>
          Started (resolve input)
            match outputFileArgIndex with
            | Some o =>
                match truthy_arg args (o + 1) with
                | Some output => Some (resolve output)
                | None => None
                end
            | None => None
            end
      end
  end.
End CommandLine.

(** ** Vocabulary of the further properties *)

(** The value that follows the first occurrence of a flag, if it counts. *)
Definition flag_value (flag : string) (args : list string) : option string :=
  match findIndex (fun arg => String.eqb arg flag) args with
  | Some i => truthy_arg args (i + 1)
  | None => None
  end.

(** Every character of [s] is an ASCII character: the strings on which
    [toUpperCase] and [toLowerCase] are the built-ins of JavaScript. *)
Definition ascii_only (s : string) : bool :=
  string_forallb (fun c => (nat_of_ascii c <? 128)%nat) s.

(** What two stretches of a traversal leave behind, one after the other:
    the texts in order, and the later entries of the table over the
    earlier ones. *)
Definition state_after (st0 st : ExtractState) : ExtractState :=
  {| typeDefs := typeDefs st0 +:+ typeDefs st;
     mutationArgs := mutationArgs st ∪ mutationArgs st0 |}.

(** [t.type === 'TSTypeLiteral'] *)
Definition is_type_literal (t : TSType) : bool :=
  match t with TSTypeLiteral _ => true | _ => false end.

(** A definition of the output against the definition of the input it comes
    from: same name, same kind unless an object type became an input type,
    same fields up to the argument lists of [Query] and [Mutation]. *)
Definition comes_from (x y : DefinitionNode) : Prop :=
  name y = name x
  /\ (kind y = kind x
      \/ (kind x = ObjectTypeDefinition /\ kind y = InputObjectTypeDefinition))
  /\ (fields y = fields x
      \/ ((name x = "Query" \/ name x = "Mutation")
          /\ Forall2 same_signature (fields x) (fields y))).

(** [definitions[i].fields[k]] *)
Definition field_at (definitions : list DefinitionNode) (i k : nat)
  : option FieldDefinition :=
  definitions !! i ≫= fun def => fields def !! k.

(** [t.type === 'TSIntersectionType'] *)
Definition is_intersection (t : TSType) : bool :=
  match t with TSIntersectionType _ => true | _ => false end.


(** [type Mutation { setAddress: Boolean }], [Address] and the helper
    [type MutationsetAddressArgs { addr: t }] *)
Definition setAddress_document (t : TypeNode) : list DefinitionNode :=
  [object_type "Mutation" [plain_field "setAddress" (NamedType "Boolean")];
   Address_type;
   object_type "MutationsetAddressArgs" [plain_field "addr" t]].
(** * Properties of the lowering functions *)

Section Lowering.

(** C6: the concrete equations of the type mapper. *)
Theorem generateType_equations :
  generateType TSStringKeyword = Return (JSString "String")
  /\ generateType TSNumberKeyword = Return (JSString "Int")
  /\ generateType TSBooleanKeyword = Return (JSString "Boolean")
  /\ generateType TSAnyKeyword = Return (JSString "String")
  /\ generateType
       (TSTypeReference (Identifier "Maybe")
          (Some [TSTypeReference (Identifier "Array") (Some [TSNumberKeyword])]))
     = Return (JSString "[Int]")
  /\ generateType
       (TSTypeReference (Identifier "Array")
          (Some [TSTypeReference (Identifier "Maybe") (Some [TSStringKeyword])]))
     = Return (JSString "[String]")
  /\ generateType
       (TSIndexedAccessType (TSTypeReference (Identifier "Scalars") None)
          (TSLiteralType (StringLiteral "DateTime")))
     = Return (JSString "DateTime")
  /\ generateType (TSTypeReference (Identifier "Scalars") None)
     = Return (JSString "Unknown")
  /\ generateType (TSTypeReference (Identifier "Scalars") (Some []))
     = Return (JSString "Unknown").
Proof. repeat split; reflexivity. Qed.

(** C5, at the failing inputs: a [Maybe] or [Array] reference written
    without type arguments, and an indexed access whose object type is not a
    type reference, make [generateType] throw; an indexed access into a
    reference other than [Scalars] returns the name node, not a string. *)
Theorem generateType_throws :
  generateType (TSTypeReference (Identifier "Maybe") None) = Throw TypeError
  /\ generateType (TSTypeReference (Identifier "Array") None) = Throw TypeError
  /\ generateType (TSIndexedAccessType TSStringKeyword
                     (TSLiteralType (StringLiteral "length"))) = Throw TypeError
  /\ generateType (TSIndexedAccessType (TSTypeReference (Identifier "User") None)
                     (TSLiteralType (StringLiteral "id")))
     = Return (JSObject (Identifier "User")).
Proof. repeat split; reflexivity. Qed.

(** [generateType] returns exactly on the shapes of [reads_defined], and
    throws on the others. *)
Lemma generateType_returns_iff :
  forall t, reads_defined t = true <-> exists v, generateType t = Return v.
Proof.
  fix IH 1. intros t.
  destruct t as [| | | | | | | | |ms|tn tp|ot it|l|ts|ts|et]; simpl;
    try (split; [eauto | done]).
  - destruct (strict_eq_string (node_name tn) "Scalars").
    { split; [|done]. intros _. repeat case_match; eauto. }
    destruct (strict_eq_string (node_name tn) "Maybe"); simpl.
    { destruct tp as [[|p0 ps]|]; [split; eauto | apply IH |].
      split; [done | by intros [v ?]]. }
    destruct (strict_eq_string (node_name tn) "Array"); [|split; eauto].
    destruct tp as [[|p0 ps]|]; [split; eauto | |split; [done | by intros [v ?]]].
    rewrite (IH p0). split.
    + intros [v ->]. simpl. eauto.
    + intros [v Hv]. destruct (generateType p0) as [v0|]; [eauto | done].
  - destruct (typeName_of ot) as [tn|]; [|split; [done | by intros [v ?]]].
    split; [|done]. intros _. repeat case_match; eauto.
Qed.

(** C7, as stated, fails: an object-literal shape with a member maps to
    [String], not to [Unknown]. *)
Lemma generateType_nonempty_literal_not_Unknown :
  generateType
    (TSTypeLiteral [TSPropertySignature (Some (Identifier "id")) (Some TSStringKeyword) false])
  <> Return (JSString "Unknown").
Proof. discriminate. Qed.

(** C7, amended: the string keyword and every object-literal shape, with or
    without members, map to [String]; a shape of a node kind the [switch]
    has no case for maps to [Unknown]. *)
Theorem generateType_String_Unknown :
  generateType TSStringKeyword = Return (JSString "String")
  /\ (forall members, generateType (TSTypeLiteral members) = Return (JSString "String"))
  /\ (forall t, has_case t = false -> generateType t = Return (JSString "Unknown")).
Proof.
  split; [reflexivity|]. split; [reflexivity|].
  intros t Hcase. destruct t; simpl in Hcase; try discriminate; reflexivity.
Qed.

Lemma generateType_String_Unknown_witness :
  has_case (TSUnionType [TSStringKeyword; TSNullKeyword]) = false
  /\ generateType (TSUnionType [TSStringKeyword; TSNullKeyword]) = Return (JSString "Unknown").
Proof.
  split; [reflexivity|].
  apply (proj2 (proj2 generateType_String_Unknown)). reflexivity.
Defined.

(** A property signature whose key is an identifier and whose type maps to
    a value lowers to indent, name, colon, mapped type and the marker, which
    is [!] exactly when the member is not optional; a member without key or
    without type annotation lowers to the empty string. *)
Lemma generateMember_format :
  (forall name typeAnnotation optional type,
      generateType typeAnnotation = Return type ->
      generateMember (TSPropertySignature (Some (Identifier name)) (Some typeAnnotation) optional)
      = Return ("  " +:+ name +:+ ": " +:+ ToString type
                +:+ (if optional then "" else "!")))
  /\ (forall member,
      key_of member = None \/ annotation_of member = None ->
      generateMember member = Return "").
Proof.
  split.
  - intros name ty optional type Hty. simpl. rewrite Hty. reflexivity.
  - intros member [Hk | Ha]; destruct member as [[k|] [a|] o | | |];
      simpl in *; try discriminate; reflexivity.
Qed.

Lemma generateMember_format_witness :
  generateMember (TSPropertySignature (Some (Identifier "id")) (Some TSNumberKeyword) false)
  = Return "  id: Int!"
  /\ generateMember (TSPropertySignature (Some (Identifier "nick")) (Some TSStringKeyword) true)
     = Return "  nick: String"
  /\ generateMember (TSPropertySignature (Some (Identifier "id")) None false) = Return "".
Proof.
  split; [|split].
  - apply (proj1 generateMember_format "id" TSNumberKeyword false (JSString "Int")).
    reflexivity.
  - apply (proj1 generateMember_format "nick" TSStringKeyword true (JSString "String")).
    reflexivity.
  - apply (proj2 generateMember_format). right. reflexivity.
Defined.

(** C8, at the failing inputs: the member [{ 'foo-bar': string }], whose key
    is a string literal, has a name and a type, and lowers to a line that
    carries [undefined] where its name belongs (the key of a string literal
    has no [name] property), neither the line of the claim nor the empty
    string; the optional member [{ a?: Maybe }] has a name and a type, and
    its lowering throws instead of returning a string. *)
Theorem generateMember_undefined_name :
  generateMember
    (TSPropertySignature (Some (StringLiteral "foo-bar")) (Some TSStringKeyword) false)
  = Return "  undefined: String!"
  /\ key_of (TSPropertySignature (Some (StringLiteral "foo-bar")) (Some TSStringKeyword) false)
     = Some (StringLiteral "foo-bar")
  /\ annotation_of
       (TSPropertySignature (Some (StringLiteral "foo-bar")) (Some TSStringKeyword) false)
     = Some TSStringKeyword
  /\ generateMember
       (TSPropertySignature (Some (Identifier "a"))
          (Some (TSTypeReference (Identifier "Maybe") None)) true)
     = Throw TypeError.
Proof. repeat split; reflexivity. Qed.

End Lowering.

(** * Strings and the prune patterns *)

Section Strings.

Lemma append_nil_l (x : string) : "" +:+ x = x.
Proof. reflexivity. Qed.

Lemma append_cons c (x y : string) : String c x +:+ y = String c (x +:+ y).
Proof. reflexivity. Qed.

Lemma append_assoc (x y z : string) : (x +:+ y) +:+ z = x +:+ y +:+ z.
Proof.
  induction x as [|c x IH]; [reflexivity|]. by rewrite !append_cons, IH.
Qed.

Lemma append_nil_r (x : string) : x +:+ "" = x.
Proof.
  induction x as [|c x IH]; [reflexivity|]. by rewrite append_cons, IH.
Qed.

Lemma length_append (x y : string) :
  String.length (x +:+ y) = (String.length x + String.length y)%nat.
Proof.
  induction x as [|c x IH]; [reflexivity|]. rewrite append_cons. simpl. by rewrite IH.
Qed.

Lemma length_map_string f (s : string) :
  String.length (map_string f s) = String.length s.
Proof. induction s as [|c s IH]; simpl; [reflexivity | by rewrite IH]. Qed.

Lemma prefix_spec (b s : string) :
  String.prefix b s = true <-> exists z, s = b +:+ z.
Proof.
  revert b. induction s as [|c s IH]; intros [|a b]; simpl.
  - split; [by exists "" | done].
  - split; [done | by intros [z Hz]].
  - split; [by eexists | done].
  - setoid_rewrite append_cons. destruct (ascii_dec a c) as [->|Hne].
    + rewrite IH. split; intros [z Hz]; exists z; congruence.
    + split; [done | intros [z Hz]; congruence].
Qed.

Lemma strip_prefix_spec (a s r : string) :
  strip_prefix a s = Some r <-> s = a +:+ r.
Proof.
  revert s. induction a as [|c a IH]; intros s; simpl.
  - rewrite append_nil_l. split; congruence.
  - rewrite append_cons. destruct s as [|d s]; [split; congruence|].
    destruct (Ascii.eqb_spec c d) as [->|Hne].
    + rewrite IH. split; congruence.
    + split; congruence.
Qed.

Lemma match_dot_star_unfold (b s : string) :
  match_dot_star b s =
  String.prefix b s ||
  match s with
  | EmptyString => false
  | String c s' => negb (is_line_terminator c) && match_dot_star b s'
  end.
Proof. by destruct s. Qed.

Lemma match_dot_star_spec (b s : string) :
  match_dot_star b s = true <->
  exists y z, s = y +:+ b +:+ z
              /\ string_forallb (fun c => negb (is_line_terminator c)) y = true.
Proof.
  split.
  - induction s as [|c s IH]; rewrite match_dot_star_unfold;
      intros [Hp | Hr]%orb_true_iff; try done.
    + apply prefix_spec in Hp as [z ->]. by exists "", z.
    + apply prefix_spec in Hp as [z Hz]. by exists "", z.
    + apply andb_true_iff in Hr as [Hc Hs].
      destruct (IH Hs) as (y & z & -> & Hy).
      exists (String c y), z. rewrite append_cons. simpl. by rewrite Hc, Hy.
  - intros (y & z & -> & Hy). induction y as [|c y IH].
    + rewrite match_dot_star_unfold. apply orb_true_iff. left.
      apply prefix_spec. by exists z.
    + simpl in Hy. apply andb_true_iff in Hy as [Hc Hy].
      rewrite match_dot_star_unfold. apply orb_true_iff. right.
      rewrite append_cons. by rewrite Hc, (IH Hy).
Qed.

Lemma regex_test_unfold (a b s : string) :
  regex_test a b s =
  match strip_prefix a s with
  | Some rest => match_dot_star b rest
  | None => false
  end ||
  match s with
  | EmptyString => false
  | String _ s' => regex_test a b s'
  end.
Proof. by destruct s. Qed.

(** The matcher decides [occurs_then]. *)
Lemma regex_test_spec (a b s : string) :
  regex_test a b s = true <-> occurs_then a b s.
Proof.
  unfold occurs_then. split.
  - induction s as [|c s IH]; rewrite regex_test_unfold;
      intros [Hp | Hr]%orb_true_iff; try done.
    + destruct (strip_prefix a "") as [r|] eqn:Hs; [|done].
      apply strip_prefix_spec in Hs.
      apply match_dot_star_spec in Hp as (y & z & -> & Hy).
      by exists "", y, z.
    + destruct (strip_prefix a (String c s)) as [r|] eqn:Hs; [|done].
      apply strip_prefix_spec in Hs.
      apply match_dot_star_spec in Hp as (y & z & -> & Hy).
      by exists "", y, z.
    + destruct (IH Hr) as (x & y & z & -> & Hy). by exists (String c x), y, z.
  - intros (x & y & z & -> & Hy). induction x as [|c x IH].
    + rewrite regex_test_unfold. apply orb_true_iff. left. rewrite append_nil_l.
      assert (strip_prefix a (a +:+ y +:+ b +:+ z) = Some (y +:+ b +:+ z)) as ->
        by by apply strip_prefix_spec.
      apply match_dot_star_spec. by exists y, z.
    + rewrite regex_test_unfold, append_cons. apply orb_true_iff. right. exact IH.
Qed.

Lemma name_chars_no_line_terminator (s : string) :
  string_forallb is_name_char s = true ->
  string_forallb (fun c => negb (is_line_terminator c)) s = true.
Proof.
  induction s as [|c s IH]; simpl; [done|].
  intros [Hc Hs]%andb_true_iff. rewrite (IH Hs), andb_true_r.
  revert Hc. unfold is_name_char, is_line_terminator, is_upper, is_lower.
  generalize (nat_of_ascii c). intros n.
  repeat match goal with
         | |- context [(?x <=? ?y)%nat] => destruct (Nat.leb_spec x y)
         | |- context [(?x =? ?y)%nat] => destruct (Nat.eqb_spec x y)
         end; simpl; try done; lia.
Qed.

(** A whole helper name matches the prune pattern of either revision. *)
Lemma helper_name_matches (op s : string) :
  helper_name op s ->
  regex_test op "Args" s = true /\ regex_test op "Arg" s = true.
Proof.
  intros (id & Hid & ->). apply name_chars_no_line_terminator in Hid.
  split; apply regex_test_spec.
  - exists "", id, "". by rewrite append_nil_r.
  - by exists "", id, "s".
Qed.

End Strings.

(** * The prune stage *)

Section Prune.

Lemma Copy1_prune_filter (definitions : list DefinitionNode) :
  Copy1.prune definitions = List.filter (fun d => negb (Copy1.pruned d)) definitions.
Proof.
  unfold Copy1.prune, Copy1.pruned.
  induction definitions as [|d ds IH]; simpl; [done|].
  destruct (regex_test "Mutation" "Arg" (name d)); simpl; [done|].
  destruct (regex_test "Query" "Arg" (name d)); simpl; by rewrite IH.
Qed.

Lemma Copy2_prune_filter (definitions : list DefinitionNode) :
  Copy2.prune definitions = List.filter (fun d => negb (Copy2.pruned d)) definitions.
Proof.
  unfold Copy2.prune, Copy2.pruned. apply List.filter_ext. intros d.
  by rewrite negb_orb.
Qed.

Lemma Copy1_pruned_spec d :
  Copy1.pruned d = true <->
  occurs_then "Mutation" "Arg" (name d) \/ occurs_then "Query" "Arg" (name d).
Proof. unfold Copy1.pruned. by rewrite orb_true_iff, !regex_test_spec. Qed.

Lemma Copy2_pruned_spec d :
  Copy2.pruned d = true <->
  occurs_then "Mutation" "Args" (name d) \/ occurs_then "Query" "Args" (name d).
Proof. unfold Copy2.pruned. by rewrite orb_true_iff, !regex_test_spec. Qed.

Lemma elem_of_filter_negb {A} (p : A -> bool) (x : A) (l : list A) :
  x ∈ List.filter (fun y => negb (p y)) l <-> x ∈ l /\ p x = false.
Proof.
  rewrite !list_elem_of_In, List.filter_In, negb_true_iff. done.
Qed.

(** The two example names are no whole helper names. *)
Lemma MutationsArg_no_helper_name op :
  op = "Mutation" \/ op = "Query" -> ~ helper_name op "MutationsArg".
Proof.
  intros [-> | ->] (id & _ & H); [|discriminate].
  rewrite append_cons in H. injection H as H. rewrite append_nil_l in H.
  destruct id as [|c1 [|c2 [|c3 [|c4 [|c5 id]]]]]; cbv [String.append] in H; discriminate.
Qed.

Lemma MyQueryExtraArgsType_no_helper_name op :
  op = "Mutation" \/ op = "Query" -> ~ helper_name op "MyQueryExtraArgsType".
Proof. intros [-> | ->] (id & _ & H); discriminate. Qed.

(** The second revision asks for [Args] after [Mutation], and keeps
    [MutationsArg]. *)
Lemma Copy2_keeps_MutationsArg flds :
  Copy2.rewrite [object_type "MutationsArg" flds] = Return [object_type "MutationsArg" flds].
Proof. reflexivity. Qed.

(** C10: the prune stage removes exactly the definitions whose name
    contains [Mutation] and later [Arg] (first revision; [Args] in the
    second) or [Query] and later [Arg] (resp. [Args]).  That covers every
    whole helper name [Mutation<Identifier>Args] and [Query<Identifier>Args]
    and more: the object types [MutationsArg] (first revision) and
    [MyQueryExtraArgsType] (both revisions) are no helper names and are
    deleted from the output. *)
Theorem prune_removes_unanchored_matches :
  (forall definitions d,
      d ∈ Copy1.prune definitions <->
      d ∈ definitions /\ ~ (occurs_then "Mutation" "Arg" (name d)
                            \/ occurs_then "Query" "Arg" (name d)))
  /\ (forall definitions d,
      d ∈ Copy2.prune definitions <->
      d ∈ definitions /\ ~ (occurs_then "Mutation" "Args" (name d)
                            \/ occurs_then "Query" "Args" (name d)))
  /\ (forall definitions d,
      helper_name "Mutation" (name d) \/ helper_name "Query" (name d) ->
      (d ∉ Copy1.prune definitions) /\ (d ∉ Copy2.prune definitions))
  /\ (forall flds,
      ~ helper_name "Mutation" "MutationsArg" /\ ~ helper_name "Query" "MutationsArg"
      /\ ~ helper_name "Mutation" "MyQueryExtraArgsType"
      /\ ~ helper_name "Query" "MyQueryExtraArgsType"
      /\ Copy1.rewrite [object_type "MutationsArg" flds] = Return []
      /\ Copy1.rewrite [object_type "MyQueryExtraArgsType" flds] = Return []
      /\ Copy2.rewrite [object_type "MyQueryExtraArgsType" flds] = Return []).
Proof.
  split; [|split; [|split]].
  - intros ds d. rewrite Copy1_prune_filter, elem_of_filter_negb.
    rewrite <- Copy1_pruned_spec. by destruct (Copy1.pruned d); intuition.
  - intros ds d. rewrite Copy2_prune_filter, elem_of_filter_negb.
    rewrite <- Copy2_pruned_spec. by destruct (Copy2.pruned d); intuition.
  - intros ds d Hh.
    rewrite Copy1_prune_filter, Copy2_prune_filter, !elem_of_filter_negb.
    unfold Copy1.pruned, Copy2.pruned.
    destruct Hh as [Hh | Hh]; apply helper_name_matches in Hh as [-> ->];
      rewrite ?orb_true_r; simpl; split; intros [_ ?]; discriminate.
  - intros flds. repeat split.
    + apply MutationsArg_no_helper_name. by left.
    + apply MutationsArg_no_helper_name. by right.
    + apply MyQueryExtraArgsType_no_helper_name. by left.
    + apply MyQueryExtraArgsType_no_helper_name. by right.
Qed.

Lemma prune_removes_unanchored_matches_witness :
  (object_type "QueryuserArgs" [] ∉ Copy1.prune [object_type "QueryuserArgs" []])
  /\ (object_type "QueryuserArgs" [] ∉ Copy2.prune [object_type "QueryuserArgs" []]).
Proof.
  apply (proj1 (proj2 (proj2 prune_removes_unanchored_matches))
           [object_type "QueryuserArgs" []] (object_type "QueryuserArgs" [])).
  right. exists "user". split; reflexivity.
Defined.

End Prune.

(** * The extraction stage *)

Section Extraction.

Lemma startsWith_Mutation_not_Scalars (id : string) :
  startsWith id "Mutation" = true -> String.eqb id "Scalars" = false.
Proof.
  intros H. destruct (String.eqb_spec id "Scalars") as [->|]; [discriminate | done].
Qed.

(** C3, as stated, fails: the alias [MutationFooArgs] does emit a fragment,
    and the alias [QueryFooArgs] is not recorded. *)
Lemma Args_alias_emits_fragment_and_Query_not_recorded :
  ~ (forall id, id = "MutationFooArgs" \/ id = "QueryFooArgs" ->
       exists st, visit initial_state (TSTypeAliasDeclaration id id_string_shape) = Return st
                  /\ typeDefs st = typeDefs initial_state
                  /\ mutationArgs st !! id = Some "(  id: String!)")
  /\ (exists st, visit initial_state (TSTypeAliasDeclaration "QueryFooArgs" id_string_shape)
                 = Return st
                 /\ typeDefs st <> "" /\ mutationArgs st !! "QueryFooArgs" = None).
Proof.
  split.
  - intros H. destruct (H "MutationFooArgs") as (st & Hst & Hdefs & _); [by left|].
    vm_compute in Hst. injection Hst as <-. discriminate.
  - eexists. split; [reflexivity|]. split; [discriminate | reflexivity].
Qed.

(** C3, amended: an alias whose name starts with [Mutation] and ends with
    [Args] and whose shape is an object literal with at least one member is
    recorded in [mutationArgs] under its name as the parenthesised,
    comma-separated list of its lowered members; its [type] fragment is
    emitted all the same.  An alias whose name does not start with
    [Mutation] (so every [Query...Args] alias) leaves [mutationArgs] as it
    was. *)
Theorem Mutation_Args_alias_recorded :
  (forall st id members ms,
      startsWith id "Mutation" = true -> endsWith id "Args" = true ->
      members <> [] ->
      mapM generateMember members = Return ms ->
      visit st (TSTypeAliasDeclaration id (TSTypeLiteral members))
      = Return {| typeDefs := typeDefs st +:+ "type " +:+ id +:+ " " +:+
                              ("{" +:+ LF +:+ join LF ms +:+ LF +:+ "}") +:+ LF;
                  mutationArgs :=
                    <[id := "(" +:+ join ", " ms +:+ ")"]> (mutationArgs st) |})
  /\ (forall st id shape st',
      startsWith id "Mutation" = false ->
      visit st (TSTypeAliasDeclaration id shape) = Return st' ->
      mutationArgs st' = mutationArgs st).
Proof.
  split.
  - intros st id members ms Hs He Hne Hms. unfold visit.
    rewrite Hs, He. simpl andb. cbv iota.
    rewrite (startsWith_Mutation_not_Scalars id Hs).
    unfold generateArgumentsDefinition, generateTypeScriptDefinition.
    destruct members as [|m members]; [done|].
    change (0 <? length (m :: members))%nat with true. cbv iota.
    rewrite Hms. reflexivity.
  - intros st id shape st' Hs. unfold visit. rewrite Hs. simpl andb. cbv iota.
    change (Return st ≫= ?k) with (k st). cbv beta.
    destruct (String.eqb id "Scalars").
    + destruct (generateScalarsDefinition shape); simpl; [|discriminate].
      by intros [= <-].
    + destruct (generateTypeScriptDefinition shape) as [td|]; simpl; [|discriminate].
      destruct (String.eqb td ""); by intros [= <-].
Qed.

Lemma Mutation_Args_alias_recorded_witness :
  visit initial_state
    (TSTypeAliasDeclaration "MutationaddUserArgs"
       (TSTypeLiteral
          [TSPropertySignature (Some (Identifier "name")) (Some TSStringKeyword) false;
           TSPropertySignature (Some (Identifier "age")) (Some TSNumberKeyword) true]))
  = Return {| typeDefs := typeDefs initial_state +:+ "type " +:+ "MutationaddUserArgs" +:+ " " +:+
                ("{" +:+ LF +:+ join LF ["  name: String!"; "  age: Int"] +:+ LF +:+ "}") +:+ LF;
              mutationArgs :=
                <["MutationaddUserArgs" :=
                    "(" +:+ join ", " ["  name: String!"; "  age: Int"] +:+ ")"]>
                  (mutationArgs initial_state) |}.
Proof.
  apply (proj1 Mutation_Args_alias_recorded); [reflexivity | reflexivity | discriminate |].
  reflexivity.
Defined.

End Extraction.

(** * Exceptions *)

Section Exceptions.

Lemma bind_Return_inv {A B} (c : Completion A) (k : A -> Completion B) b :
  c ≫= k = Return b -> exists a, c = Return a /\ k a = Return b.
Proof. destruct c as [a|e]; [by exists a | discriminate]. Qed.

Lemma throws_only_Return {A} (a : A) : throws_only_TypeError (Return a).
Proof. intros e; discriminate. Qed.

Lemma throws_only_Throw {A} : throws_only_TypeError (@Throw A TypeError).
Proof. by intros e [= <-]. Qed.

Lemma throws_only_bind {A B} (c : Completion A) (k : A -> Completion B) :
  throws_only_TypeError c -> (forall a, throws_only_TypeError (k a)) ->
  throws_only_TypeError (c ≫= k).
Proof.
  intros Hc Hk. destruct c as [a|e]; [apply Hk|].
  intros e' [= <-]. by apply Hc.
Qed.

Lemma throws_only_mapM {A B} (f : A -> Completion B) (xs : list A) :
  (forall x, throws_only_TypeError (f x)) -> throws_only_TypeError (mapM f xs).
Proof.
  intros Hf. induction xs as [|x xs IH]; [apply throws_only_Return|].
  apply throws_only_bind; [apply Hf|]. intros y.
  apply throws_only_bind; [apply IH|]. intros ys. apply throws_only_Return.
Qed.

Lemma throws_only_forEach {A S} (body : S -> A -> Completion S) (xs : list A) (s : S) :
  (forall s x, throws_only_TypeError (body s x)) ->
  throws_only_TypeError (forEach body xs s).
Proof.
  intros Hb. revert s. induction xs as [|x xs IH]; intros s;
    [apply throws_only_Return|].
  apply throws_only_bind; [apply Hb | apply IH].
Qed.

Create HintDb throws.
#[local] Hint Resolve throws_only_Return throws_only_Throw : throws.

Lemma generateType_throws_only : forall t, throws_only_TypeError (generateType t).
Proof.
  fix IH 1. intros t. destruct t as [| | | | | | | | |ms|tn tp|ot it|l|ts|ts|et];
    simpl; auto with throws.
  - repeat case_match; auto with throws.
    apply throws_only_bind; [apply IH | auto with throws].
  - repeat case_match; auto with throws.
Qed.

Lemma generateMember_throws_only m : throws_only_TypeError (generateMember m).
Proof.
  destruct m as [[k|] [a|] o| | |]; simpl; auto with throws.
  apply throws_only_bind; [apply generateType_throws_only | auto with throws].
Qed.

Lemma members_definition_throws_only (k : list string -> string) members :
  throws_only_TypeError
    (if (0 <? length members)%nat
     then ms ← mapM generateMember members; Return (k ms)
     else Return "").
Proof.
  case_match; auto with throws.
  apply throws_only_bind; [|auto with throws].
  apply throws_only_mapM, generateMember_throws_only.
Qed.

Lemma visit_throws_only st node : throws_only_TypeError (visit st node).
Proof.
  destruct node as [tag quasis | id shape | id members]; simpl.
  - case_match; auto with throws.
  - apply throws_only_bind.
    + case_match; auto with throws.
      apply throws_only_bind; [|auto with throws].
      destruct shape; simpl; auto with throws;
        repeat case_match; auto with throws;
        (apply throws_only_bind; [|auto with throws]);
        apply throws_only_mapM, generateMember_throws_only.
    + intros st'. case_match.
      * apply throws_only_bind; [|auto with throws].
        destruct shape; simpl; auto with throws.
        case_match; auto with throws.
        apply throws_only_bind; [|auto with throws].
        apply throws_only_mapM. intros m. unfold member_key_name.
        case_match; auto with throws.
      * apply throws_only_bind.
        -- destruct shape; simpl; auto with throws;
             repeat case_match; auto with throws;
             (apply throws_only_bind; [|auto with throws]);
             apply throws_only_mapM, generateMember_throws_only.
        -- intros td. case_match; auto with throws.
  - apply throws_only_bind; [|auto with throws].
    apply throws_only_mapM. intros m. unfold enum_member_name.
    case_match; auto with throws.
Qed.

Lemma extract_throws_only ast : throws_only_TypeError (extract ast).
Proof. apply throws_only_forEach, visit_throws_only. Qed.

Lemma findIndexM_throws_only {A} (p : A -> Completion bool) xs :
  (forall x, throws_only_TypeError (p x)) -> throws_only_TypeError (findIndexM p xs).
Proof.
  intros Hp. induction xs as [|x xs IH]; simpl; [auto with throws|].
  apply throws_only_bind; [apply Hp|]. intros [|]; [auto with throws|].
  apply throws_only_bind; [apply IH | auto with throws].
Qed.

Lemma bind_pass_throws_only change op definitions :
  (forall ds arg, throws_only_TypeError (change ds arg)) ->
  throws_only_TypeError (bind_pass change op definitions).
Proof.
  intros Hc. unfold bind_pass. case_match; [|auto with throws].
  apply throws_only_forEach. intros ds [j field]. unfold bind_field.
  case_match; [|auto with throws]. by apply throws_only_forEach.
Qed.

Lemma Copy1_change_throws_only ds arg :
  throws_only_TypeError (Copy1.change_argument_type ds arg).
Proof.
  unfold Copy1.change_argument_type. apply throws_only_bind.
  - apply findIndexM_throws_only. intros def. case_match; [|auto with throws].
    apply throws_only_bind; [|auto with throws].
    unfold Copy1.arg_type_type_name_value. repeat case_match; auto with throws.
  - intros [i|]; auto with throws.
Qed.

Lemma Copy2_change_returns ds arg :
  exists ds', Copy2.change_argument_type ds arg = Return ds'.
Proof. unfold Copy2.change_argument_type. case_match; eauto. Qed.

Lemma Copy1_rewrite_throws_only parsed : throws_only_TypeError (Copy1.rewrite parsed).
Proof.
  unfold Copy1.rewrite.
  apply throws_only_bind;
    [apply bind_pass_throws_only, Copy1_change_throws_only|].
  intros ds. apply throws_only_bind; [|auto with throws].
  apply bind_pass_throws_only. intros; apply throws_only_Return.
Qed.

Lemma forEach_returns {A S} (body : S -> A -> Completion S) (xs : list A) (s : S) :
  (forall s x, exists s', body s x = Return s') ->
  exists s', forEach body xs s = Return s'.
Proof.
  intros Hb. revert s. induction xs as [|x xs IH]; intros s; simpl; [eauto|].
  destruct (Hb s x) as [s' ->]. apply IH.
Qed.

Lemma bind_pass_returns change op definitions :
  (forall ds arg, exists ds', change ds arg = Return ds') ->
  exists ds', bind_pass change op definitions = Return ds'.
Proof.
  intros Hc. unfold bind_pass. case_match; [|eauto].
  apply forEach_returns. intros ds [j field]. unfold bind_field.
  case_match; [|eauto]. by apply forEach_returns.
Qed.

(** The second revision of the rewrite pass never throws. *)
Lemma Copy2_rewrite_returns parsed : exists out, Copy2.rewrite parsed = Return out.
Proof.
  unfold Copy2.rewrite.
  destruct (bind_pass_returns Copy2.change_argument_type "Query" (reposition parsed)
              Copy2_change_returns) as [ds ->]. simpl.
  destruct (bind_pass_returns Copy2.change_argument_type "Mutation" ds
              Copy2_change_returns) as [ds' ->].
  simpl. eauto.
Qed.

Lemma Copy2_rewrite_throws_only parsed : throws_only_TypeError (Copy2.rewrite parsed).
Proof.
  destruct (Copy2_rewrite_returns parsed) as [out ->]. apply throws_only_Return.
Qed.

End Exceptions.

(** * The pipeline *)

Section PipelineProperties.

Variable parse : string -> option (list DefinitionNode).
Variable print : list DefinitionNode -> string.
Variable rewrite : list DefinitionNode -> Completion (list DefinitionNode).
Hypothesis rewrite_throws_only : forall parsed, throws_only_TypeError (rewrite parsed).

Lemma transform_NoDefinitionsFound (ast : list Node) :
  transform parse print rewrite ast = Throw NoDefinitionsFound <->
  exists st, extract ast = Return st /\ typeDefs st = "".
Proof.
  unfold transform. split.
  - destruct (extract ast) as [st|e] eqn:He; simpl.
    + destruct (String.eqb_spec (typeDefs st) "") as [Hempty|Hne]; [eauto|].
      unfold parse_or_throw. destruct (parse (typeDefs st)) as [parsed|]; simpl;
        [|discriminate].
      destruct (rewrite parsed) as [ds|e] eqn:Hr; simpl; [discriminate|].
      intros [= ->]. by apply rewrite_throws_only in Hr.
    + intros [= ->]. by apply extract_throws_only in He.
  - intros (st & -> & Hempty). simpl. by rewrite Hempty.
Qed.

Lemma transform_nonempty (ast : list Node) st :
  extract ast = Return st -> typeDefs st <> "" ->
  transform parse print rewrite ast =
  (parsedAST ← parse_or_throw parse (typeDefs st);
   definitions ← rewrite parsedAST;
   Return (print definitions)).
Proof.
  intros He Hne. unfold transform. rewrite He. simpl.
  by destruct (String.eqb_spec (typeDefs st) "").
Qed.

End PipelineProperties.

(** C9: a run fails with [NoDefinitionsFound] exactly when the extraction
    stage returned an empty [typeDefs]; the run then only reports the error
    and writes nothing, while a non-empty [typeDefs] goes on to [parse],
    the rewrite pass and [print].  For either revision of the rewrite
    pass. *)
Theorem NoDefinitionsFound_iff_empty_typeDefs :
  forall parse print rewrite outputFilePath ast,
    rewrite = Copy1.rewrite \/ rewrite = Copy2.rewrite ->
    (transform parse print rewrite ast = Throw NoDefinitionsFound <->
     exists st, extract ast = Return st /\ typeDefs st = "")
    /\ (transform parse print rewrite ast = Throw NoDefinitionsFound ->
        main parse print rewrite outputFilePath ast = [console_error NoDefinitionsFound])
    /\ (forall st, extract ast = Return st -> typeDefs st <> "" ->
        transform parse print rewrite ast =
        (parsedAST ← parse_or_throw parse (typeDefs st);
         definitions ← rewrite parsedAST;
         Return (print definitions))).
Proof.
  intros parse print rewrite out ast Hrw.
  assert (forall parsed, throws_only_TypeError (rewrite parsed)) as Hthrows.
  { destruct Hrw as [-> | ->];
      [apply Copy1_rewrite_throws_only | apply Copy2_rewrite_throws_only]. }
  split; [by apply transform_NoDefinitionsFound|]. split.
  - intros H. unfold main. by rewrite H.
  - intros st. by apply transform_nonempty.
Qed.

Lemma NoDefinitionsFound_iff_empty_typeDefs_witness :
  main (fun _ => None) (fun _ => "") Copy2.rewrite (Some "schema.graphql")
    [TSTypeAliasDeclaration "Empty" (TSTypeLiteral [])]
  = [console_error NoDefinitionsFound].
Proof.
  destruct (NoDefinitionsFound_iff_empty_typeDefs (fun _ => None) (fun _ => "")
              Copy2.rewrite (Some "schema.graphql")
              [TSTypeAliasDeclaration "Empty" (TSTypeLiteral [])] (or_intror eq_refl))
    as (Hiff & Hmain & _).
  apply Hmain, Hiff. exists initial_state. split; reflexivity.
Defined.

(** * Scans and loops *)

Section Loops.

Lemma findIndex_Some {A} (p : A -> bool) (l : list A) (i : nat) :
  findIndex p l = Some i <->
  (exists x, l !! i = Some x /\ p x = true)
  /\ (forall k y, (k < i)%nat -> l !! k = Some y -> p y = false).
Proof.
  revert i. induction l as [|a l IH]; intros i; simpl.
  - split; [done | by intros [[x [? _]] _]].
  - destruct (p a) eqn:Hpa.
    + split.
      * intros [= <-]. split; [by exists a | intros k y Hk; lia].
      * intros [[x [Hx Hpx]] Hlt]. destruct i as [|i]; [done|].
        specialize (Hlt 0%nat a). rewrite Hlt in Hpa; [done | lia | done].
    + split.
      * intros Hfi. destruct (findIndex p l) as [i'|] eqn:Hf; [|done].
        simpl in Hfi. injection Hfi as <-.
        destruct (proj1 (IH i') eq_refl) as [Hx Hlt].
        split; [done|]. intros [|k] y Hk Hy; simpl in Hy; [congruence|].
        apply (Hlt k); [lia | done].
      * intros [[x [Hx Hpx]] Hlt]. destruct i as [|i]; simpl in Hx; [congruence|].
        rewrite (proj2 (IH i)); [done|]. split; [by exists x|].
        intros k y Hk Hy. apply (Hlt (S k)); [lia | done].
Qed.

Lemma findIndex_None {A} (p : A -> bool) (l : list A) :
  findIndex p l = None <-> forall x, x ∈ l -> p x = false.
Proof.
  induction l as [|a l IH]; simpl.
  - split; [intros _ x Hx; by apply elem_of_nil in Hx | done].
  - destruct (p a) eqn:Hpa.
    + split; [done|]. intros H. rewrite H in Hpa; [done | by left].
    + split.
      * intros Hf x [->|Hx]%elem_of_cons; [done|].
        apply (proj1 IH); [|done]. by destruct (findIndex p l).
      * intros H. rewrite (proj2 IH); [done|]. intros x Hx. apply H. by right.
Qed.

Lemma findIndex_lookup {A} (p : A -> bool) (l : list A) (i : nat) :
  findIndex p l = Some i -> exists x, l !! i = Some x /\ p x = true.
Proof. intros H. by apply findIndex_Some in H as [? _]. Qed.

Lemma findIndex_ext {A} (p q : A -> bool) (l : list A) :
  (forall x, x ∈ l -> p x = q x) -> findIndex p l = findIndex q l.
Proof.
  induction l as [|a l IH]; intros H; simpl; [done|].
  rewrite <- (H a) by by left. rewrite IH; [done|].
  intros x Hx. apply H. by right.
Qed.

(** A scan finds the same index in a second list when no earlier element
    newly satisfies the predicate and the element found still does. *)
Lemma findIndex_stable {A B} (p : A -> bool) (q : B -> bool) (l : list A) (l' : list B) i :
  findIndex p l = Some i ->
  (forall k x y, (k < i)%nat -> l !! k = Some x -> l' !! k = Some y ->
                 q y = true -> p x = true) ->
  length l = length l' ->
  (exists y, l' !! i = Some y /\ q y = true) ->
  findIndex q l' = Some i.
Proof.
  intros [[x [Hx Hpx]] Hlt]%findIndex_Some Hmono Hlen Hy.
  apply findIndex_Some. split; [done|].
  intros k y Hk Hky. destruct (q y) eqn:Hq; [|done].
  destruct (lookup_lt_is_Some_2 l k) as [x' Hx'].
  { apply lookup_lt_Some in Hx. lia. }
  specialize (Hmono k x' y Hk Hx' Hky Hq). by rewrite (Hlt k x' Hk Hx') in Hmono.
Qed.

Lemma forEach_app {A S} (body : S -> A -> Completion S) (xs ys : list A) (s : S) :
  forEach body (xs ++ ys) s = (s' ← forEach body xs s; forEach body ys s').
Proof.
  revert s. induction xs as [|x xs IH]; intros s; simpl; [done|].
  destruct (body s x) as [s'|e]; simpl; [apply IH | done].
Qed.

(** A loop that returns ran its body at each element. *)
Lemma forEach_split {A S} (body : S -> A -> Completion S) (xs : list A) (x : A) (s s' : S) :
  x ∈ xs -> forEach body xs s = Return s' ->
  exists xs1 xs2 s1 s2,
    xs = xs1 ++ x :: xs2
    /\ forEach body xs1 s = Return s1
    /\ body s1 x = Return s2
    /\ forEach body xs2 s2 = Return s'.
Proof.
  intros (xs1 & xs2 & ->)%list_elem_of_split. rewrite forEach_app.
  intros (s1 & H1 & H2)%bind_Return_inv. simpl in H2.
  apply bind_Return_inv in H2 as (s2 & H2 & H3).
  by exists xs1, xs2, s1, s2.
Qed.

Lemma forEach_invariant {A S} (body : S -> A -> Completion S) (I : S -> Prop) (xs : list A) :
  (forall s x s', x ∈ xs -> I s -> body s x = Return s' -> I s') ->
  forall s s', I s -> forEach body xs s = Return s' -> I s'.
Proof.
  induction xs as [|x xs IH]; intros Hbody s s' Hs; simpl.
  - by intros [= <-].
  - intros (s1 & H1 & H2)%bind_Return_inv.
    apply (IH (fun s x s' Hx => Hbody s x s' (list_elem_of_further _ _ _ Hx)) s1 s');
      [|done].
    apply (Hbody s x s1); [by left | done..].
Qed.

Lemma forEach_id {A S} (body : S -> A -> Completion S) (xs : list A) (s : S) :
  (forall x, x ∈ xs -> body s x = Return s) -> forEach body xs s = Return s.
Proof.
  induction xs as [|x xs IH]; intros H; simpl; [done|].
  rewrite H by by left. simpl. apply IH. intros y Hy. apply H. by right.
Qed.

End Loops.

(** * The updates of the binding passes *)

Section Updates.

Implicit Types ds s : list DefinitionNode.

Lemma same_signature_refl_list (fs : list FieldDefinition) : Forall2 same_signature fs fs.
Proof. induction fs; constructor; [by split | done]. Qed.

Lemma evolves_refl N x : evolves N x x.
Proof. split; [done|]. split; by left. Qed.

Lemma evolves_signatures N x y :
  evolves N x y -> Forall2 same_signature (fields x) (fields y).
Proof.
  intros (_ & _ & [-> | [_ H]]); [apply same_signature_refl_list | done].
Qed.

Lemma Evolves_refl ds : Evolves ds ds.
Proof.
  unfold Evolves. generalize (fun n => referenced n ds). intros N.
  induction ds; constructor; [apply evolves_refl | done].
Qed.

Lemma Evolves_lookup ds s i x :
  Evolves ds s -> ds !! i = Some x ->
  exists y, s !! i = Some y /\ evolves (fun n => referenced n ds) x y.
Proof. intros H Hx. by apply (Forall2_lookup_l _ _ _ _ _ H Hx). Qed.

Lemma Evolves_lookup_r ds s i y :
  Evolves ds s -> s !! i = Some y ->
  exists x, ds !! i = Some x /\ evolves (fun n => referenced n ds) x y.
Proof. intros H Hy. by apply (Forall2_lookup_r _ _ _ _ _ H Hy). Qed.

Lemma Evolves_length ds s : Evolves ds s -> length s = length ds.
Proof. intros H. symmetry. by apply Forall2_length in H. Qed.

(** The declared types of the fields never change, so neither does what
    is referenced. *)
Lemma Evolves_referenced ds s n :
  Evolves ds s -> referenced n ds <-> referenced n s.
Proof.
  intros H. split.
  - intros (def & arg & [i Hi]%list_elem_of_lookup & [k Hk]%list_elem_of_lookup & Hw).
    destruct (Evolves_lookup _ _ _ _ H Hi) as (def' & Hi' & Hev).
    apply evolves_signatures in Hev.
    destruct (Forall2_lookup_l _ _ _ _ _ Hev Hk) as (arg' & Hk' & _ & Ht).
    exists def', arg'. rewrite Ht.
    split; [|split; [|done]]; apply list_elem_of_lookup; eauto.
  - intros (def & arg & [i Hi]%list_elem_of_lookup & [k Hk]%list_elem_of_lookup & Hw).
    destruct (Evolves_lookup_r _ _ _ _ H Hi) as (def' & Hi' & Hev).
    apply evolves_signatures in Hev.
    destruct (Forall2_lookup_r _ _ _ _ _ Hev Hk) as (arg' & Hk' & _ & Ht).
    exists def', arg'. rewrite <- Ht.
    split; [|split; [|done]]; apply list_elem_of_lookup; eauto.
Qed.

Lemma same_signature_trans_list (fs1 fs2 fs3 : list FieldDefinition) :
  Forall2 same_signature fs1 fs2 -> Forall2 same_signature fs2 fs3 ->
  Forall2 same_signature fs1 fs3.
Proof.
  intros H. revert fs3. induction H as [|f1 f2 fs1 fs2 [Hn Ht] _ IH]; intros fs3 H3;
    inversion H3 as [|? f3 ? fs3' [Hn' Ht'] H3']; subst; constructor; [|by apply IH].
  split; congruence.
Qed.

Lemma evolves_trans (N : string -> Prop) x y z :
  evolves N x y -> evolves N y z -> evolves N x z.
Proof.
  intros (Hn & Hk & Hf) (Hn' & Hk' & Hf'). split; [congruence|]. split.
  - destruct Hk as [Hk | (Hx & Hy & HN)], Hk' as [Hk' | (Hy' & Hz & HN')].
    + left. congruence.
    + right. rewrite <- Hn, <- Hk. done.
    + right. rewrite Hk'. done.
    + congruence.
  - destruct Hf as [Hf | [Hx Hf]], Hf' as [Hf' | [Hy Hf']].
    + left. congruence.
    + right. rewrite <- Hn, <- Hf. done.
    + right. rewrite Hf'. done.
    + right. split; [done|]. by eapply same_signature_trans_list.
Qed.

Lemma Evolves_trans ds1 ds2 ds3 :
  Evolves ds1 ds2 -> Evolves ds2 ds3 -> Evolves ds1 ds3.
Proof.
  intros H12 H23. apply Forall2_same_length_lookup. split.
  - apply Evolves_length in H12, H23. congruence.
  - intros i x z Hx Hz.
    destruct (Evolves_lookup _ _ _ _ H12 Hx) as (y & Hy & Hxy).
    destruct (Evolves_lookup _ _ _ _ H23 Hy) as (z' & Hz' & Hyz).
    assert (z' = z) as -> by congruence.
    eapply evolves_trans; [done|].
    destruct Hyz as (Hn & Hk & Hf). split; [done|]. split; [|done].
    destruct Hk as [Hk | (? & ? & HN)]; [by left | right].
    by rewrite (Evolves_referenced _ _ _ H12).
Qed.

Lemma reclassify_Evolves ds n : referenced n ds -> Evolves ds (reclassify n ds).
Proof.
  intros Hn. unfold reclassify.
  destruct (findIndex (is_object_named n) ds) as [i|] eqn:Hi; [|apply Evolves_refl].
  apply Forall2_alter_r; [apply Evolves_refl|].
  intros x y Hx Hy _.
  apply findIndex_lookup in Hi as (x' & Hx' & Hp).
  assert (x' = x) as -> by congruence. assert (y = x) as -> by congruence.
  apply andb_true_iff in Hp as [Hk%bool_decide_eq_true Hname%String.eqb_eq].
  split; [done|]. split; [|by left]. right. by rewrite Hname.
Qed.

Lemma set_field_arguments_Evolves ds oi o j args :
  ds !! oi = Some o -> name o = "Query" \/ name o = "Mutation" ->
  Evolves ds (alter (set_field_arguments j args) oi ds).
Proof.
  intros Ho Hname. apply Forall2_alter_r; [apply Evolves_refl|].
  intros x y Hx Hy _. assert (x = o) as -> by congruence.
  assert (y = o) as -> by congruence.
  split; [done|]. split; [by left|]. right. split; [done|]. simpl.
  apply Forall2_alter_r; [apply same_signature_refl_list|].
  intros f f' _ _ [? ?]. by split.
Qed.

Lemma update_Evolves ds s : update ds s -> Evolves ds s.
Proof.
  intros [n Hn | oi o j args Ho Hname];
    [by apply reclassify_Evolves | by eapply set_field_arguments_Evolves].
Qed.

Lemma updates_Evolves ds s : rtc update ds s -> Evolves ds s.
Proof.
  induction 1 as [|ds1 ds2 ds3 H12 _ IH]; [apply Evolves_refl|].
  eapply Evolves_trans; [by apply update_Evolves | done].
Qed.

Lemma Evolves_names ds s : Evolves ds s -> name <$> s = name <$> ds.
Proof.
  intros H. apply list_eq. intros i. rewrite !list_lookup_fmap.
  destruct (ds !! i) as [x|] eqn:Hx.
  - destruct (Evolves_lookup _ _ _ _ H Hx) as (y & -> & Hn & _). simpl. by rewrite Hn.
  - apply lookup_ge_None in Hx. rewrite <- (Evolves_length _ _ H) in Hx.
    apply lookup_ge_None in Hx. by rewrite Hx.
Qed.

(** Once an input type, always an input type. *)
Lemma Evolves_input ds s i x :
  Evolves ds s -> ds !! i = Some x -> kind x = InputObjectTypeDefinition ->
  exists y, s !! i = Some y /\ kind y = InputObjectTypeDefinition.
Proof.
  intros H Hx Hk. destruct (Evolves_lookup _ _ _ _ H Hx) as (y & Hy & _ & Hkind & _).
  exists y. split; [done|]. destruct Hkind as [-> | [? _]]; congruence.
Qed.

(** An object type that is not referenced stays the first of its name. *)
Lemma findIndex_object_stable ds s m i :
  Evolves ds s -> findIndex (is_object_named m) ds = Some i -> ~ referenced m ds ->
  findIndex (is_object_named m) s = Some i.
Proof.
  intros H Hi Hm. eapply findIndex_stable; [done|..].
  - intros k x y _ Hx Hy.
    destruct (Evolves_lookup _ _ _ _ H Hx) as (y' & Hy' & Hn & Hk & _).
    assert (y' = y) as -> by congruence.
    unfold is_object_named. rewrite Hn.
    intros [Hko%bool_decide_eq_true ->]%andb_true_iff. rewrite andb_true_r.
    apply bool_decide_eq_true. destruct Hk as [<- | [? _]]; done.
  - symmetry. by apply Evolves_length.
  - apply findIndex_lookup in Hi as (x & Hx & Hp).
    destruct (Evolves_lookup _ _ _ _ H Hx) as (y & Hy & Hn & Hk & _).
    exists y. split; [done|]. revert Hp. unfold is_object_named. rewrite Hn.
    intros [Hko%bool_decide_eq_true Heq]%andb_true_iff. rewrite Heq, andb_true_r.
    apply bool_decide_eq_true. apply String.eqb_eq in Heq.
    destruct Hk as [-> | (_ & _ & Hr)]; [done|]. by rewrite Heq in Hr.
Qed.

Lemma find_args_stable ds s op field field' ai a :
  Evolves ds s -> find_args op field ds = Some ai -> ds !! ai = Some a ->
  ~ referenced (name a) ds -> fname field' = fname field ->
  find_args op field' s = Some ai.
Proof.
  intros H Hi Ha Hr Hf. unfold find_args in *. rewrite Hf.
  eapply findIndex_stable; [done|..].
  - intros k x y _ Hx Hy.
    destruct (Evolves_lookup _ _ _ _ H Hx) as (y' & Hy' & Hn & Hk & _).
    assert (y' = y) as -> by congruence. rewrite Hn.
    intros [Hko%bool_decide_eq_true ->]%andb_true_iff. rewrite andb_true_r.
    apply bool_decide_eq_true. destruct Hk as [<- | [? _]]; done.
  - symmetry. by apply Evolves_length.
  - apply findIndex_lookup in Hi as (x & Hx & Hp).
    assert (x = a) as -> by congruence.
    destruct (Evolves_lookup _ _ _ _ H Hx) as (y & Hy & Hn & Hk & _).
    exists y. split; [done|]. revert Hp. rewrite Hn.
    intros [Hko%bool_decide_eq_true ->]%andb_true_iff. rewrite andb_true_r.
    apply bool_decide_eq_true. destruct Hk as [-> | (_ & _ & Hr')]; done.
Qed.

End Updates.

(** * The argument handlers and the binding passes *)

Section Passes.

Implicit Types ds s : list DefinitionNode.

Lemma wrapped_name_Some t n :
  wrapped_name t = Some n <-> t = ListType (NamedType n) \/ t = NonNullType (NamedType n).
Proof.
  unfold wrapped_name.
  destruct t as [m | [m| |] | [m| |]]; simpl; split; try done;
    try (intros [H | H]; congruence); intros [= ->]; auto.
Qed.

Lemma Copy1_name_value arg :
  Copy1.arg_type_type_name_value arg =
  match wrapped_name (ftype arg) with
  | Some n => Return n
  | None => Throw TypeError
  end.
Proof.
  unfold Copy1.arg_type_type_name_value, wrapped_name.
  destruct (type_type (ftype arg)) as [t|]; simpl; [|done].
  by destruct (type_name_value t).
Qed.

Lemma findIndexM_pure {A} (p : A -> Completion bool) (q : A -> bool) (l : list A) :
  (forall x, p x = Return (q x)) -> findIndexM p l = Return (findIndex q l).
Proof.
  intros H. induction l as [|a l IH]; simpl; [done|].
  rewrite H. simpl. destruct (q a); [done|]. by rewrite IH.
Qed.

Lemma findIndexM_never {A} (p : A -> Completion bool) (l : list A) r :
  (forall x, p x = Return false \/ exists e, p x = Throw e) ->
  findIndexM p l = Return r -> r = None.
Proof.
  intros H. revert r. induction l as [|a l IH]; simpl; intros r; [congruence|].
  destruct (H a) as [-> | [e ->]]; simpl; [|done].
  intros (r' & Hr' & [= <-])%bind_Return_inv. by rewrite (IH r' Hr').
Qed.

Lemma Copy1_change_spec ds arg ds' :
  Copy1.change_argument_type ds arg = Return ds' ->
  ds' = match wrapped_name (ftype arg) with
        | Some n => reclassify n ds
        | None => ds
        end.
Proof.
  unfold Copy1.change_argument_type. rewrite Copy1_name_value.
  destruct (wrapped_name (ftype arg)) as [n|].
  - rewrite (findIndexM_pure _ (is_object_named n)).
    + simpl. unfold reclassify.
      destruct (findIndex (is_object_named n) ds); by intros [= <-].
    + intros def. unfold is_object_named. by destruct (bool_decide _).
  - intros (r & Hr & Hds)%bind_Return_inv.
    apply findIndexM_never in Hr as ->; [by injection Hds|].
    intros def. destruct (bool_decide _); [right; by exists TypeError | by left].
Qed.

Lemma Copy2_change_spec ds arg :
  Copy2.change_argument_type ds arg =
  Return match wrapped_name (ftype arg) with
         | Some n => reclassify n ds
         | None => ds
         end.
Proof.
  unfold Copy2.change_argument_type, wrapped_name, reclassify.
  destruct (type_type (ftype arg)) as [t|]; simpl.
  - destruct (type_name_value t) as [n|]; simpl.
    + by destruct (findIndex _ ds).
    + rewrite (proj2 (findIndex_None _ ds)); [done|]. intros x _. apply andb_false_r.
  - rewrite (proj2 (findIndex_None _ ds)); [done|]. intros x _. apply andb_false_r.
Qed.

Lemma Copy1_change_ok : handler_ok Copy1.change_argument_type.
Proof.
  intros ds arg ds' ->%Copy1_change_spec.
  destruct (wrapped_name (ftype arg)) as [n|]; eauto.
Qed.

Lemma Copy1_change_reclassifies : handler_reclassifies Copy1.change_argument_type.
Proof. intros ds arg ds' n ->%Copy1_change_spec ->. done. Qed.

Lemma Copy1_keep_ok : handler_ok Copy1.keep_argument_type.
Proof. intros ds arg ds' [= <-]. by left. Qed.

Lemma Copy2_change_ok : handler_ok Copy2.change_argument_type.
Proof.
  intros ds arg ds'. rewrite Copy2_change_spec. intros [= <-].
  destruct (wrapped_name (ftype arg)) as [n|]; eauto.
Qed.

Lemma Copy2_change_reclassifies : handler_reclassifies Copy2.change_argument_type.
Proof.
  intros ds arg ds' n. rewrite Copy2_change_spec. by intros [= <-] ->.
Qed.

Section Generic.

Variable change :
  list DefinitionNode -> FieldDefinition -> Completion (list DefinitionNode).
Hypothesis change_ok : handler_ok change.

Lemma handler_updates ds arg ds' :
  (forall n, wrapped_name (ftype arg) = Some n -> referenced n ds) ->
  change ds arg = Return ds' -> rtc update ds ds'.
Proof.
  intros Href [-> | (n & Hn & ->)]%change_ok; [done|].
  apply rtc_once, update_kind. by apply Href.
Qed.

(** [args.forEach(arg => ...)] *)
Lemma handlers_update ds args ds' :
  (forall arg n, arg ∈ args -> wrapped_name (ftype arg) = Some n -> referenced n ds) ->
  forEach change args ds = Return ds' -> rtc update ds ds'.
Proof.
  intros Href. apply (forEach_invariant change (fun s => rtc update ds s)); [|done].
  intros s arg s' Harg Hs Hchange. etrans; [done|].
  apply (handler_updates _ arg); [|done].
  intros n Hn. apply (Evolves_referenced ds s n); [by apply updates_Evolves|].
  by apply (Href arg).
Qed.

Lemma bind_field_updates op oi ds jfield ds' :
  op = "Query" \/ op = "Mutation" ->
  (exists o, ds !! oi = Some o /\ name o = op) ->
  bind_field change op oi ds jfield = Return ds' -> rtc update ds ds'.
Proof.
  intros Hop (o & Ho & Hname). destruct jfield as [j field]. unfold bind_field.
  destruct (find_args op field ds) as [ai|] eqn:Hai; [|by intros [= <-]].
  apply findIndex_lookup in Hai as (a & Ha & _). rewrite Ha. simpl.
  intros Hloop.
  assert (update ds (alter (set_field_arguments j (fields a)) oi ds)) as Hstep.
  { apply (update_arguments ds oi o); [done | by rewrite Hname]. }
  etrans; [by apply rtc_once|].
  apply (handlers_update _ (fields a)); [|done].
  intros arg n Harg Hn.
  apply (Evolves_referenced ds); [by apply update_Evolves|].
  exists a, arg. split; [|done]. apply list_elem_of_lookup. eauto.
Qed.

Lemma bind_fields_update op oi ds jfields ds' :
  op = "Query" \/ op = "Mutation" ->
  (exists o, ds !! oi = Some o /\ name o = op) ->
  forEach (bind_field change op oi) jfields ds = Return ds' -> rtc update ds ds'.
Proof.
  intros Hop (o & Ho & Hname).
  apply (forEach_invariant _ (fun s => rtc update ds s)); [|done].
  intros s jf s' _ Hs Hbody. etrans; [done|].
  apply (bind_field_updates op oi _ jf); [done| |done].
  destruct (Evolves_lookup _ _ _ _ (updates_Evolves _ _ Hs) Ho) as (o' & Ho' & Hn & _).
  exists o'. split; [done | congruence].
Qed.

Lemma bind_pass_updates op ds ds' :
  op = "Query" \/ op = "Mutation" ->
  bind_pass change op ds = Return ds' -> rtc update ds ds'.
Proof.
  intros Hop. unfold bind_pass.
  destruct (findIndex (is_object_named op) ds) as [oi|] eqn:Hoi; [|by intros [= <-]].
  apply findIndex_lookup in Hoi as (o & Ho & Hp).
  apply (bind_fields_update op oi); [done|].
  exists o. split; [done|].
  by apply andb_true_iff in Hp as [_ ?%String.eqb_eq].
Qed.

End Generic.

End Passes.

(** * The rewrite pass as a whole *)

Section Rewrite.

Implicit Types ds s parsed out : list DefinitionNode.

Lemma Copy1_rewrite_inv parsed out :
  Copy1.rewrite parsed = Return out ->
  exists s1 s2,
    bind_pass Copy1.change_argument_type "Mutation" (reposition parsed) = Return s1
    /\ bind_pass Copy1.keep_argument_type "Query" s1 = Return s2
    /\ out = Copy1.prune s2.
Proof.
  unfold Copy1.rewrite. intros (s1 & H1 & H2)%bind_Return_inv.
  apply bind_Return_inv in H2 as (s2 & H2 & [= <-]). by exists s1, s2.
Qed.

Lemma Copy2_rewrite_inv parsed out :
  Copy2.rewrite parsed = Return out ->
  exists s1 s2,
    bind_pass Copy2.change_argument_type "Query" (reposition parsed) = Return s1
    /\ bind_pass Copy2.change_argument_type "Mutation" s1 = Return s2
    /\ out = Copy2.prune s2.
Proof.
  unfold Copy2.rewrite. intros (s1 & H1 & H2)%bind_Return_inv.
  apply bind_Return_inv in H2 as (s2 & H2 & [= <-]). by exists s1, s2.
Qed.

Lemma Copy1_rewrite_updates parsed out :
  Copy1.rewrite parsed = Return out ->
  exists s, rtc update (reposition parsed) s /\ out = Copy1.prune s.
Proof.
  intros (s1 & s2 & H1 & H2 & ->)%Copy1_rewrite_inv. exists s2. split; [|done].
  etrans.
  - apply (bind_pass_updates _ Copy1_change_ok "Mutation"); [by right | done].
  - apply (bind_pass_updates _ Copy1_keep_ok "Query"); [by left | done].
Qed.

Lemma Copy2_rewrite_updates parsed out :
  Copy2.rewrite parsed = Return out ->
  exists s, rtc update (reposition parsed) s /\ out = Copy2.prune s.
Proof.
  intros (s1 & s2 & H1 & H2 & ->)%Copy2_rewrite_inv. exists s2. split; [|done].
  etrans.
  - apply (bind_pass_updates _ Copy2_change_ok "Query"); [by left | done].
  - apply (bind_pass_updates _ Copy2_change_ok "Mutation"); [by right | done].
Qed.

(** Filtering on names commutes with taking names. *)
Lemma filter_names_congr (p : string -> bool) ds ds' :
  name <$> ds = name <$> ds' ->
  name <$> List.filter (fun d => p (name d)) ds
  = name <$> List.filter (fun d => p (name d)) ds'.
Proof.
  revert ds'. induction ds as [|d ds IH]; intros [|d' ds']; simpl; try done.
  intros [= Hd Hds]. rewrite Hd.
  destruct (p (name d')); simpl; [f_equal; [done|]|]; by apply IH.
Qed.

Lemma Copy1_prune_names ds ds' :
  name <$> ds = name <$> ds' -> name <$> Copy1.prune ds = name <$> Copy1.prune ds'.
Proof.
  rewrite !Copy1_prune_filter.
  apply (filter_names_congr
           (fun n => negb (regex_test "Mutation" "Arg" n || regex_test "Query" "Arg" n))).
Qed.

Lemma Copy2_prune_names ds ds' :
  name <$> ds = name <$> ds' -> name <$> Copy2.prune ds = name <$> Copy2.prune ds'.
Proof.
  rewrite !Copy2_prune_filter.
  apply (filter_names_congr
           (fun n => negb (regex_test "Mutation" "Args" n || regex_test "Query" "Args" n))).
Qed.

Lemma reposition_Some parsed qi :
  findIndex (is_object_named "Query") parsed = Some qi ->
  exists q, parsed !! qi = Some q /\ kind q = ObjectTypeDefinition /\ name q = "Query"
            /\ reposition parsed = delete qi parsed ++ [q].
Proof.
  intros Hqi. unfold reposition. rewrite Hqi.
  apply findIndex_lookup in Hqi as (q & Hq & Hp). rewrite Hq. exists q.
  apply andb_true_iff in Hp as [?%bool_decide_eq_true ?%String.eqb_eq]. done.
Qed.

Lemma reposition_None parsed :
  findIndex (is_object_named "Query") parsed = None -> reposition parsed = parsed.
Proof. intros H. unfold reposition. by rewrite H. Qed.

Lemma prune_snoc_Query ds q :
  name q = "Query" ->
  Copy1.prune (ds ++ [q]) = Copy1.prune ds ++ [q]
  /\ Copy2.prune (ds ++ [q]) = Copy2.prune ds ++ [q].
Proof.
  intros Hq. rewrite !Copy1_prune_filter, !Copy2_prune_filter, !List.filter_app. simpl.
  unfold Copy1.pruned, Copy2.pruned. rewrite Hq. done.
Qed.

(** C2, at the failing input [Mutation, Query, User]: both revisions give
    [Mutation, User, Query].  [Mutation] is left where it was, so the
    output does not end with [Query] and [Mutation], as the claim and the
    README of the script say it does. *)
Theorem Mutation_stays_in_place :
  Copy1.rewrite Mutation_first_document
  = Return [object_type "Mutation" []; object_type "User" []; object_type "Query" []]
  /\ Copy2.rewrite Mutation_first_document
     = Return [object_type "Mutation" []; object_type "User" []; object_type "Query" []]
  /\ ~ (exists out front,
          Copy2.rewrite Mutation_first_document = Return out
          /\ name <$> out = front ++ ["Query"; "Mutation"]).
Proof.
  split; [reflexivity|]. split; [reflexivity|].
  intros (out & front & [= <-] & Hnames). simpl in Hnames.
  destruct front as [|n1 [|n2 [|n3 [|n4 front]]]]; discriminate.
Qed.

(** The binding passes neither move nor drop a definition, so the names of
    the output are those of the pruned input, in the order of the input,
    except that the first object type named [Query], if there is one, comes
    last. *)
Lemma Query_last_others_in_place :
  forall parsed out,
    (Copy1.rewrite parsed = Return out ->
     match findIndex (is_object_named "Query") parsed with
     | Some qi => name <$> out = (name <$> Copy1.prune (delete qi parsed)) ++ ["Query"]
                  /\ last (name <$> out) = Some "Query"
     | None => name <$> out = name <$> Copy1.prune parsed
     end)
    /\ (Copy2.rewrite parsed = Return out ->
        match findIndex (is_object_named "Query") parsed with
        | Some qi => name <$> out = (name <$> Copy2.prune (delete qi parsed)) ++ ["Query"]
                     /\ last (name <$> out) = Some "Query"
        | None => name <$> out = name <$> Copy2.prune parsed
        end).
Proof.
  intros parsed out. split.
  - intros (s & Hs%updates_Evolves%Evolves_names & ->)%Copy1_rewrite_updates.
    rewrite (Copy1_prune_names _ _ Hs).
    destruct (findIndex (is_object_named "Query") parsed) as [qi|] eqn:Hqi.
    + apply reposition_Some in Hqi as (q & _ & _ & Hq & ->).
      rewrite (proj1 (prune_snoc_Query _ q Hq)), fmap_app. simpl. rewrite Hq.
      split; [done | apply last_snoc].
    + by rewrite reposition_None.
  - intros (s & Hs%updates_Evolves%Evolves_names & ->)%Copy2_rewrite_updates.
    rewrite (Copy2_prune_names _ _ Hs).
    destruct (findIndex (is_object_named "Query") parsed) as [qi|] eqn:Hqi.
    + apply reposition_Some in Hqi as (q & _ & _ & Hq & ->).
      rewrite (proj2 (prune_snoc_Query _ q Hq)), fmap_app. simpl. rewrite Hq.
      split; [done | apply last_snoc].
    + by rewrite reposition_None.
Qed.

Lemma Query_last_others_in_place_witness :
  name <$> user_document_rewritten
  = (name <$> Copy2.prune (delete 0%nat user_document)) ++ ["Query"]
  /\ last (name <$> user_document_rewritten) = Some "Query".
Proof.
  apply (proj2 (Query_last_others_in_place user_document user_document_rewritten)).
  reflexivity.
Defined.

End Rewrite.

(** * Rewriting a rewritten document *)

Section Idempotence.

Implicit Types ds s parsed out : list DefinitionNode.

Lemma update_reclassified_first ds0 s s' :
  Evolves ds0 s -> reclassified_first ds0 s -> update s s' ->
  reclassified_first ds0 s'.
Proof.
  intros Hev Hfirst [n Hn | oi o j' args Ho Hname].
  - unfold reclassify.
    destruct (findIndex (is_object_named n) s) as [i0|] eqn:Hi0; [|done].
    apply findIndex_Some in Hi0 as [(y0 & Hy0 & Hp0) Hlt].
    apply andb_true_iff in Hp0 as [Hk0%bool_decide_eq_true Hn0%String.eqb_eq].
    intros i j x y z Hx Hy Hkx Hky Hji Hz Hzx.
    destruct (decide (j = i0)) as [-> | Hj].
    { rewrite list_lookup_alter_eq, Hy0 in Hz. injection Hz as <-. done. }
    rewrite list_lookup_alter_ne in Hz by done.
    destruct (decide (i = i0)) as [-> | Hi].
    + destruct (Evolves_lookup _ _ _ _ Hev Hx) as (y0' & Hy0' & Hname & _).
      assert (y0' = y0) as -> by congruence.
      specialize (Hlt j z Hji Hz). unfold is_object_named in Hlt.
      assert (String.eqb (name z) n = true) as Heq.
      { apply String.eqb_eq. congruence. }
      rewrite Heq, andb_true_r in Hlt. by apply bool_decide_eq_false in Hlt.
    + rewrite list_lookup_alter_ne in Hy by done.
      by apply (Hfirst i j x y z).
  - intros i j x y z Hx Hy Hkx Hky Hji Hz Hzx.
    assert (forall k w, alter (set_field_arguments j' args) oi s !! k = Some w ->
                        exists w', s !! k = Some w' /\ kind w' = kind w
                                   /\ name w' = name w) as Hsame.
    { intros k w. destruct (decide (k = oi)) as [-> | Hk].
      - rewrite list_lookup_alter_eq, Ho. intros [= <-]. by exists o.
      - rewrite list_lookup_alter_ne by done. intros Hw. by exists w. }
    destruct (Hsame _ _ Hy) as (y' & Hy' & Hky' & _).
    destruct (Hsame _ _ Hz) as (z' & Hz' & Hkz' & Hnz').
    rewrite <- Hkz'. apply (Hfirst i j x y' z'); congruence.
Qed.

Lemma updates_reclassified_first ds0 s :
  rtc update ds0 s -> reclassified_first ds0 s.
Proof.
  intros H. revert s H. apply rtc_ind_r.
  - intros i j x y z Hx Hy Hkx Hky. congruence.
  - intros s1 s2 H1 H2 IH. eapply update_reclassified_first; [|done..].
    by apply updates_Evolves.
Qed.

(** An object type is an object type of the same name before the updates. *)
Lemma Evolves_object_named ds s i x y m :
  Evolves ds s -> ds !! i = Some x -> s !! i = Some y ->
  is_object_named m y = true -> is_object_named m x = true.
Proof.
  intros H Hx Hy. destruct (Evolves_lookup _ _ _ _ H Hx) as (y' & Hy' & Hn & Hk & _).
  assert (y' = y) as -> by congruence. unfold is_object_named. rewrite Hn.
  intros [Hko%bool_decide_eq_true ->]%andb_true_iff. rewrite andb_true_r.
  apply bool_decide_eq_true. destruct Hk as [<- | [? _]]; done.
Qed.

Lemma elem_of_filter_list {A} (p : A -> bool) (x : A) (l : list A) :
  x ∈ List.filter p l <-> x ∈ l /\ p x = true.
Proof. by rewrite !list_elem_of_In, List.filter_In. Qed.

Lemma filter_idemp {A} (p : A -> bool) (l : list A) :
  List.filter p (List.filter p l) = List.filter p l.
Proof.
  induction l as [|a l IH]; simpl; [done|].
  destruct (p a) eqn:Hpa; simpl; [rewrite Hpa; f_equal|]; done.
Qed.

(** Where the scan for the object type [Query] ends in the output. *)
Lemma rewritten_Query_position (pruned : DefinitionNode -> bool) parsed s :
  (forall d, name d = "Query" -> pruned d = false) ->
  rtc update (reposition parsed) s ->
  let out := List.filter (fun d => negb (pruned d)) s in
  at_most_one (is_object_named "Query") out ->
  reposition out = out.
Proof.
  intros Hkeep Hupd out Hone.
  pose proof (updates_Evolves _ _ Hupd) as Hev.
  pose proof (updates_reclassified_first _ _ Hupd) as Hfirst.
  destruct (findIndex (is_object_named "Query") out) as [i|] eqn:Hi;
    [|by apply reposition_None].
  destruct (reposition_Some _ _ Hi) as (q' & Hq' & Hkq' & Hnq' & ->).
  destruct (findIndex (is_object_named "Query") parsed) as [qi|] eqn:Hqi.
  - destruct (reposition_Some _ _ Hqi) as (q & Hq & Hkq & Hnq & Hrep).
    rewrite Hrep in Hev, Hfirst.
    assert ((delete qi parsed ++ [q]) !! length (delete qi parsed) = Some q) as Hlast.
    { by rewrite list_lookup_middle. }
    destruct (Evolves_lookup _ _ _ _ Hev Hlast) as (y & Hy & Hny & Hky & _).
    assert (exists s', s = s' ++ [y] /\ length s' = length (delete qi parsed))
      as (s' & -> & Hlen).
    { exists (take (length (delete qi parsed)) s).
      apply Evolves_length in Hev. rewrite length_app in Hev. simpl in Hev.
      split; [|rewrite length_take; lia].
      rewrite <- (take_drop_middle s _ y Hy) at 1. f_equal.
      rewrite drop_ge; [done | lia]. }
    subst out. rewrite List.filter_app in *. simpl in *.
    rewrite (Hkeep y) in * by congruence. simpl in *.
    destruct (decide (kind y = ObjectTypeDefinition)) as [Hobj | Hobj].
    + assert (i = length (List.filter (fun d => negb (pruned d)) s')) as ->.
      { apply (Hone _ _ q' y Hq'); [by rewrite list_lookup_middle| |].
        - unfold is_object_named.
          by rewrite Hkq', Hnq', bool_decide_eq_true_2.
        - unfold is_object_named.
          by rewrite Hobj, Hny, Hnq, bool_decide_eq_true_2. }
      rewrite list_lookup_middle in Hq' by done. injection Hq' as <-.
      by rewrite delete_middle, app_nil_r.
    + exfalso.
      assert (q' ∈ s' ++ [y]) as [k Hk]%list_elem_of_lookup.
      { apply list_elem_of_lookup_2 in Hq'.
        apply elem_of_app in Hq' as [Hin | Hin]; apply elem_of_app;
          [left | by right]. by apply elem_of_filter_list in Hin as [? _]. }
      destruct (decide (k = length s')) as [-> | Hne].
      * rewrite list_lookup_middle in Hk by done. congruence.
      * assert (k < length s')%nat as Hlt.
        { apply lookup_lt_Some in Hk. rewrite length_app in Hk. simpl in Hk. lia. }
        apply (Hfirst (length (delete qi parsed)) k q y q');
          first [done | congruence | lia].
  - exfalso. rewrite (reposition_None _ Hqi) in Hev.
    assert (q' ∈ s) as [k Hk]%list_elem_of_lookup.
    { apply list_elem_of_lookup_2 in Hq'. by apply elem_of_filter_list in Hq' as [? _]. }
    destruct (Evolves_lookup_r _ _ _ _ Hev Hk) as (x & Hx & _).
    apply (proj1 (findIndex_None _ _)) with (x := x) in Hqi;
      [|by apply list_elem_of_lookup_2 in Hx].
    rewrite (Evolves_object_named _ _ _ _ _ _ Hev Hx Hk) in Hqi; [done|].
    unfold is_object_named. by rewrite Hkq', Hnq', bool_decide_eq_true_2.
Qed.

(** Without a definition that can serve as helper, a binding pass changes
    nothing. *)
Lemma bind_pass_no_helper change op ds :
  (forall d, d ∈ ds -> ~ helper_like op d) ->
  bind_pass change op ds = Return ds.
Proof.
  intros Hno. unfold bind_pass. destruct (findIndex _ ds) as [oi|]; [|done].
  apply forEach_id. intros [j field] _. unfold bind_field, find_args.
  rewrite (proj2 (findIndex_None _ ds)); [done|].
  intros d Hd. destruct (String.eqb_spec (toLowerCase (name d))
                           (toLowerCase (op +:+ fname field +:+ "Args"))) as [Heq|];
    [|apply andb_false_r].
  destruct (Hno d Hd). by exists (fname field).
Qed.

(** C4, as stated, fails: with two object types named [Query] every run
    swaps them, so the second run does not reproduce the output of the
    first. *)
Lemma second_run_changes_output :
  exists out,
    Copy1.rewrite two_Query_document = Return out
    /\ Copy2.rewrite two_Query_document = Return out
    /\ Copy1.rewrite out <> Return out /\ Copy2.rewrite out <> Return out.
Proof.
  exists (reverse two_Query_document).
  split; [reflexivity|]. split; [reflexivity|]. split; discriminate.
Qed.

(** C4, amended: when the output of a run holds at most one object type
    named [Query] and no definition whose name equals, up to letter case,
    [Mutation<f>Args] or [Query<f>Args] for some [f], a second run returns
    that same output. *)
Theorem rewrite_idempotent :
  forall parsed out,
    at_most_one (is_object_named "Query") out ->
    (forall d, d ∈ out -> ~ helper_like "Mutation" d /\ ~ helper_like "Query" d) ->
    (Copy1.rewrite parsed = Return out -> Copy1.rewrite out = Return out)
    /\ (Copy2.rewrite parsed = Return out -> Copy2.rewrite out = Return out).
Proof.
  intros parsed out Hone Hno. split.
  - intros (s & Hupd & Hout)%Copy1_rewrite_updates.
    rewrite Copy1_prune_filter in Hout. unfold Copy1.rewrite.
    rewrite Hout, (rewritten_Query_position Copy1.pruned parsed s), <- Hout;
      [|by intros d Hd; unfold Copy1.pruned, Copy2.pruned; rewrite Hd|done|by rewrite <- Hout].
    rewrite bind_pass_no_helper by (intros d Hd; by apply Hno). simpl.
    rewrite bind_pass_no_helper by (intros d Hd; by apply Hno). simpl.
    by rewrite Hout, Copy1_prune_filter, filter_idemp.
  - intros (s & Hupd & Hout)%Copy2_rewrite_updates.
    rewrite Copy2_prune_filter in Hout. unfold Copy2.rewrite.
    rewrite Hout, (rewritten_Query_position Copy2.pruned parsed s), <- Hout;
      [|by intros d Hd; unfold Copy1.pruned, Copy2.pruned; rewrite Hd|done|by rewrite <- Hout].
    rewrite bind_pass_no_helper by (intros d Hd; by apply Hno). simpl.
    rewrite bind_pass_no_helper by (intros d Hd; by apply Hno). simpl.
    by rewrite Hout, Copy2_prune_filter, filter_idemp.
Qed.

End Idempotence.

(** * Reclassification of bound argument types *)

Section Reclassification.

Implicit Types ds s parsed out : list DefinitionNode.

Lemma helper_like_length op d :
  helper_like op d -> (String.length op + 4 <= String.length (name d))%nat.
Proof.
  intros [f Hf]. apply (f_equal String.length) in Hf.
  unfold toLowerCase in Hf. rewrite !length_map_string, !length_append in Hf.
  simpl in Hf. lia.
Qed.

Lemma find_args_helper_like op field ds ai a :
  find_args op field ds = Some ai -> ds !! ai = Some a ->
  kind a = ObjectTypeDefinition /\ helper_like op a.
Proof.
  intros (a' & Ha' & Hp)%findIndex_lookup Ha. assert (a' = a) as -> by congruence.
  apply andb_true_iff in Hp as [?%bool_decide_eq_true ?%String.eqb_eq].
  split; [done | by exists (fname field)].
Qed.

Lemma helper_not_operation op field ds ai a :
  op = "Query" \/ op = "Mutation" ->
  find_args op field ds = Some ai -> ds !! ai = Some a ->
  name a <> "Query" /\ name a <> "Mutation".
Proof.
  intros Hop Hai Ha.
  destruct (find_args_helper_like _ _ _ _ _ Hai Ha) as [_ Hlen%helper_like_length].
  split; intros Hn; rewrite Hn in Hlen; destruct Hop as [-> | ->]; simpl in Hlen; lia.
Qed.

(** Reclassifying [n] leaves the first object type named [n] of the
    original array an input type. *)
Lemma reclassify_target ds s n ti :
  Evolves ds s -> findIndex (is_object_named n) ds = Some ti ->
  exists y, reclassify n s !! ti = Some y /\ kind y = InputObjectTypeDefinition.
Proof.
  intros Hev Hti. pose proof Hti as (t & Ht & Hp)%findIndex_lookup.
  destruct (Evolves_lookup _ _ _ _ Hev Ht) as (y0 & Hy0 & Hn & Hk & _).
  apply andb_true_iff in Hp as [Hkt%bool_decide_eq_true Hnt].
  unfold reclassify. destruct Hk as [Hk | (_ & Hk & _)].
  - assert (findIndex (is_object_named n) s = Some ti) as ->.
    { eapply findIndex_stable; [done|..].
      - intros k x y _ Hx Hy. by eapply Evolves_object_named.
      - symmetry. by apply Evolves_length.
      - exists y0. split; [done|]. unfold is_object_named.
        by rewrite Hk, Hkt, Hn, Hnt, bool_decide_eq_true_2. }
    exists (InputObject y0). by rewrite list_lookup_alter_eq, Hy0.
  - destruct (findIndex (is_object_named n) s) as [i|]; [|by exists y0].
    destruct (decide (i = ti)) as [-> | Hne].
    + exists (InputObject y0). by rewrite list_lookup_alter_eq, Hy0.
    + exists y0. by rewrite list_lookup_alter_ne.
Qed.

Section Generic.

Variable change :
  list DefinitionNode -> FieldDefinition -> Completion (list DefinitionNode).
Hypothesis change_ok : handler_ok change.
Hypothesis change_reclassifies : handler_reclassifies change.

(** The argument loop over the fields of a helper reclassifies the type of
    each argument. *)
Lemma handlers_reclassify_target ds s args arg n ti s' :
  Evolves ds s ->
  (forall arg' m, arg' ∈ args -> wrapped_name (ftype arg') = Some m -> referenced m s) ->
  arg ∈ args -> wrapped_name (ftype arg) = Some n ->
  findIndex (is_object_named n) ds = Some ti ->
  forEach change args s = Return s' ->
  exists y, s' !! ti = Some y /\ kind y = InputObjectTypeDefinition.
Proof.
  intros Hev Href Harg Hn Hti Hloop.
  destruct (forEach_split _ _ _ _ _ Harg Hloop)
    as (args1 & args2 & sa & sb & -> & H1 & Hbody & H2).
  assert (rtc update s sa) as Hsa.
  { apply (handlers_update _ change_ok _ args1); [|done].
    intros arg' m Hin. apply Href. apply elem_of_app. by left. }
  assert (rtc update sb s') as Hsb.
  { apply (handlers_update _ change_ok _ args2); [|done].
    intros arg' m Hin Hm.
    assert (referenced m s) as Hr.
    { apply (Href arg'); [|done]. apply elem_of_app. right. by right. }
    apply (Evolves_referenced s sa) in Hr; [|by apply updates_Evolves].
    apply (Evolves_referenced sa sb); [|done].
    apply updates_Evolves, (handler_updates _ change_ok _ arg); [|done].
    intros m' Hm'. apply (Evolves_referenced s sa); [by apply updates_Evolves|].
    by apply (Href arg). }
  apply (change_reclassifies _ _ _ n) in Hbody as ->; [|done].
  destruct (reclassify_target ds sa n ti) as (y & Hy & Hk); [|done|].
  { eapply Evolves_trans; [done | by apply updates_Evolves]. }
  by apply (Evolves_input _ _ _ _ (updates_Evolves _ _ Hsb) Hy).
Qed.

(** One pass: started on an array that evolved from [ds], the pass for
    [op] leaves the type of a bound argument an input type. *)
Lemma pass_reclassifies_target ds s0 s1 op oi o j field ai a arg n ti :
  op = "Query" \/ op = "Mutation" ->
  Evolves ds s0 ->
  findIndex (is_object_named op) ds = Some oi -> ds !! oi = Some o ->
  fields o !! j = Some field ->
  find_args op field ds = Some ai -> ds !! ai = Some a ->
  arg ∈ fields a -> wrapped_name (ftype arg) = Some n ->
  findIndex (is_object_named n) ds = Some ti ->
  ~ referenced op ds -> ~ referenced (name a) ds ->
  bind_pass change op s0 = Return s1 ->
  exists y, s1 !! ti = Some y /\ kind y = InputObjectTypeDefinition.
Proof.
  intros Hop Hev Hoi Ho Hj Hai Ha Harg Hn Hti Hrop Hra. unfold bind_pass.
  rewrite (findIndex_object_stable _ _ _ _ Hev Hoi Hrop).
  destruct (Evolves_lookup _ _ _ _ Hev Ho) as (o0 & Ho0 & Hno0 & _ & Hfo0).
  rewrite Ho0. simpl.
  assert (name o = op) as Hname_o.
  { apply findIndex_lookup in Hoi as (o' & Ho' & Hp).
    assert (o' = o) as -> by congruence.
    by apply andb_true_iff in Hp as [_ ?%String.eqb_eq]. }
  assert (exists field0, fields o0 !! j = Some field0 /\ fname field0 = fname field)
    as (field0 & Hj0 & Hf0).
  { destruct Hfo0 as [-> | [_ Hsig]]; [by exists field|].
    destruct (Forall2_lookup_l _ _ _ _ _ Hsig Hj) as (field0 & ? & ? & _).
    by exists field0. }
  intros Hloop.
  assert ((j, field0) ∈ imap pair (fields o0)) as Hin.
  { by apply (elem_of_lookup_imap_2 pair). }
  destruct (forEach_split _ _ _ _ _ Hin Hloop)
    as (fs1 & fs2 & sa & sb & _ & H1 & Hbody & H2).
  assert (rtc update s0 sa) as Hsa.
  { apply (bind_fields_update _ change_ok op oi _ fs1); [done| |done].
    exists o0. split; [done | congruence]. }
  assert (Evolves ds sa) as Hev_a.
  { eapply Evolves_trans; [done | by apply updates_Evolves]. }
  destruct (Evolves_lookup _ _ _ _ Hev_a Ho) as (oa & Hoa & Hnoa & _).
  assert (rtc update sb s1) as Hsb.
  { apply (bind_fields_update _ change_ok op oi _ fs2); [done| |done].
    assert (rtc update sa sb) as Hab.
    { apply (bind_field_updates _ change_ok op oi _ (j, field0)); [done| |done].
      exists oa. split; [done | congruence]. }
    destruct (Evolves_lookup _ _ _ _ (updates_Evolves _ _ Hab) Hoa) as (ob & Hob & Hnob & _).
    exists ob. split; [done | congruence]. }
  unfold bind_field in Hbody.
  rewrite (find_args_stable _ _ _ _ _ _ _ Hev_a Hai Ha Hra Hf0) in Hbody.
  destruct (Evolves_lookup _ _ _ _ Hev_a Ha) as (aa & Haa & _ & _ & Hfa).
  rewrite Haa in Hbody. simpl in Hbody.
  destruct (helper_not_operation _ _ _ _ _ Hop Hai Ha) as [HnQ HnM].
  assert (fields aa = fields a) as Hfields by (destruct Hfa as [? | [[? | ?] _]]; done).
  rewrite Hfields in Hbody.
  assert (Evolves sa (alter (set_field_arguments j (fields a)) oi sa)) as Hstep.
  { apply (set_field_arguments_Evolves _ _ oa); [done|]. rewrite Hnoa, Hname_o. done. }
  destruct (handlers_reclassify_target ds (alter (set_field_arguments j (fields a)) oi sa)
              (fields a) arg n ti sb) as (y & Hy & Hk);
    [by eapply Evolves_trans| |done..|].
  { intros arg' m Hin' Hm. apply (Evolves_referenced sa); [done|].
    exists aa, arg'. rewrite Hfields. split; [|done].
    apply list_elem_of_lookup. eauto. }
  by apply (Evolves_input _ _ _ _ (updates_Evolves _ _ Hsb) Hy).
Qed.

End Generic.

End Reclassification.

(** * Reclassification through a whole run *)

Section ReclassificationClaim.

Implicit Types ds s parsed out : list DefinitionNode.

Lemma referencedb_spec n ds : referencedb n ds = true <-> referenced n ds.
Proof.
  unfold referencedb, referenced. rewrite List.existsb_exists. split.
  - intros (def & Hdef & (arg & Harg & Hw)%List.existsb_exists).
    exists def, arg. rewrite !list_elem_of_In.
    destruct (wrapped_name (ftype arg)) as [m|]; [|done].
    by apply String.eqb_eq in Hw as ->.
  - intros (def & arg & Hdef & Harg & Hw). exists def.
    split; [by apply list_elem_of_In|]. apply List.existsb_exists. exists arg.
    split; [by apply list_elem_of_In|]. rewrite Hw. apply String.eqb_refl.
Qed.

Lemma not_referenced n ds : referencedb n ds = false -> ~ referenced n ds.
Proof. intros H Hr%referencedb_spec. congruence. Qed.

(** What is at the index of a reclassified definition at the end. *)
Lemma reclassified_definition ds s ti t y :
  Evolves ds s -> ds !! ti = Some t -> s !! ti = Some y ->
  kind y = InputObjectTypeDefinition ->
  name t <> "Query" -> name t <> "Mutation" ->
  y = InputObject t.
Proof.
  intros Hev Ht Hy Hk HQ HM.
  destruct (Evolves_lookup _ _ _ _ Hev Ht) as (y' & Hy' & Hn & _ & Hf).
  assert (y' = y) as -> by congruence.
  assert (fields y = fields t) as Hfields by (destruct Hf as [? | [[? | ?] _]]; done).
  destruct y as [ky ny fy], t as [kt nt ft]. simpl in *. subst.
  reflexivity.
Qed.

(** C1, at the failing inputs.  An argument declared with the bare,
    nullable type [Address] is bound by the second revision, whose lookup
    skips it, and [Address] stays an object type in the output; the same
    argument on a field of [Mutation] makes the first revision throw; and
    the [Query] pass of the first revision reclassifies nothing, also for
    an argument of type [Address!]. *)
Theorem nullable_argument_type_not_reclassified :
  Copy2.rewrite (getUser_document (NamedType "Address"))
  = Return [Address_type; getUser_bound (NamedType "Address")]
  /\ ~ (exists out, Copy2.rewrite (getUser_document (NamedType "Address")) = Return out
                    /\ InputObject Address_type ∈ out)
  /\ Copy1.rewrite (setAddress_document (NamedType "Address")) = Throw TypeError
  /\ Copy1.rewrite (getUser_document (NonNullType (NamedType "Address")))
     = Return [Address_type; getUser_bound (NonNullType (NamedType "Address"))]
  /\ ~ (exists out, Copy1.rewrite (getUser_document (NonNullType (NamedType "Address")))
                    = Return out
                    /\ InputObject Address_type ∈ out).
Proof.
  split; [reflexivity|]. split; [|split; [reflexivity|split; [reflexivity|]]].
  - intros (out & [= <-] & Hin). apply list_elem_of_In in Hin.
    simpl in Hin. by destruct Hin as [? | [? | []]].
  - intros (out & [= <-] & Hin). apply list_elem_of_In in Hin.
    simpl in Hin. by destruct Hin as [? | [? | []]].
Qed.

(** X12: the binding of a helper reclassifies the object types its
    arguments name under one wrapper.  Take, in the array after repositioning, the first object
    type named [op] (Mutation in the first revision, Query or Mutation in
    the second), one of its fields, the helper the pass finds for that
    field and an argument field of the helper whose declared type is a list
    or non-null wrapper directly around the name [n] of an object type
    [t], the first of that name.  If no field type in the document wraps
    the name [op] or the name of the helper, [n] is neither [Query] nor
    [Mutation], and [n] does not match a prune pattern, then a run that
    returns has [t], reclassified as input type and otherwise unchanged, in
    its output. *)
Theorem bound_argument_type_reclassified :
  forall parsed out op oi o j field ai a arg n ti t,
    (op = "Mutation" /\ Copy1.rewrite parsed = Return out /\ Copy1.pruned t = false)
    \/ ((op = "Query" \/ op = "Mutation") /\ Copy2.rewrite parsed = Return out
        /\ Copy2.pruned t = false) ->
    findIndex (is_object_named op) (reposition parsed) = Some oi ->
    reposition parsed !! oi = Some o ->
    fields o !! j = Some field ->
    find_args op field (reposition parsed) = Some ai ->
    reposition parsed !! ai = Some a ->
    arg ∈ fields a ->
    wrapped_name (ftype arg) = Some n ->
    findIndex (is_object_named n) (reposition parsed) = Some ti ->
    reposition parsed !! ti = Some t ->
    ~ referenced op (reposition parsed) ->
    ~ referenced (name a) (reposition parsed) ->
    n <> "Query" -> n <> "Mutation" ->
    InputObject t ∈ out.
Proof.
  intros parsed out op oi o j field ai a arg n ti t Hrun Hoi Ho Hj Hai Ha Harg Hn
    Hti Ht Hrop Hra HnQ HnM.
  assert (name t = n) as Hname.
  { apply findIndex_lookup in Hti as (t' & Ht' & Hp).
    assert (t' = t) as -> by congruence.
    by apply andb_true_iff in Hp as [_ ?%String.eqb_eq]. }
  assert (forall s y,
             Evolves (reposition parsed) s -> s !! ti = Some y ->
             kind y = InputObjectTypeDefinition ->
             y = InputObject t) as Hfinal.
  { intros s y Hev Hy Hk.
    apply (reclassified_definition (reposition parsed) s ti); auto; congruence. }
  destruct Hrun as [(-> & Hrun & Hkeep) | (Hop & Hrun & Hkeep)].
  - apply Copy1_rewrite_inv in Hrun as (s1 & s2 & H1 & H2 & ->).
    destruct (pass_reclassifies_target _ Copy1_change_ok Copy1_change_reclassifies
                (reposition parsed) (reposition parsed) s1 "Mutation"
                oi o j field ai a arg n ti) as (y1 & Hy1 & Hk1);
      auto using Evolves_refl.
    assert (rtc update (reposition parsed) s1) as Hu1.
    { apply (bind_pass_updates _ Copy1_change_ok "Mutation"); auto. }
    assert (rtc update s1 s2) as Hu2.
    { apply (bind_pass_updates _ Copy1_keep_ok "Query"); auto. }
    destruct (Evolves_input _ _ _ _ (updates_Evolves _ _ Hu2) Hy1 Hk1) as (y & Hy & Hk).
    rewrite (Hfinal s2 y) in Hy; [|apply updates_Evolves; by etrans|done..].
    rewrite Copy1_prune_filter. apply elem_of_filter_negb.
    split; [by apply list_elem_of_lookup_2 in Hy | done].
  - apply Copy2_rewrite_inv in Hrun as (s1 & s2 & H1 & H2 & ->).
    assert (rtc update (reposition parsed) s1) as Hu1.
    { apply (bind_pass_updates _ Copy2_change_ok "Query"); auto. }
    assert (rtc update s1 s2) as Hu2.
    { apply (bind_pass_updates _ Copy2_change_ok "Mutation"); auto. }
    assert (exists y, s2 !! ti = Some y /\ kind y = InputObjectTypeDefinition)
      as (y & Hy & Hk).
    { destruct Hop as [-> | ->].
      - destruct (pass_reclassifies_target _ Copy2_change_ok Copy2_change_reclassifies
                    (reposition parsed) (reposition parsed) s1 "Query"
                    oi o j field ai a arg n ti) as (y1 & Hy1 & Hk1);
          auto using Evolves_refl.
        by apply (Evolves_input _ _ _ _ (updates_Evolves _ _ Hu2) Hy1).
      - apply (pass_reclassifies_target _ Copy2_change_ok Copy2_change_reclassifies
                 (reposition parsed) s1 s2 "Mutation" oi o j field ai a arg n ti);
          auto using updates_Evolves. }
    rewrite (Hfinal s2 y) in Hy; [|apply updates_Evolves; by etrans|done..].
    rewrite Copy2_prune_filter. apply elem_of_filter_negb.
    split; [by apply list_elem_of_lookup_2 in Hy | done].
Qed.

Lemma bound_argument_type_reclassified_witness :
  InputObject Address_type ∈
    [InputObject Address_type; getUser_bound (NonNullType (NamedType "Address"))].
Proof.
  apply (bound_argument_type_reclassified
           (getUser_document (NonNullType (NamedType "Address"))) _ "Query"
           2%nat (object_type "Query" [plain_field "getUser" (NamedType "User")])
           0%nat (plain_field "getUser" (NamedType "User"))
           1%nat (object_type "QuerygetUserArgs"
                    [plain_field "addr" (NonNullType (NamedType "Address"))])
           (plain_field "addr" (NonNullType (NamedType "Address")))
           "Address" 0%nat Address_type).
  - right. split; [by left|]. split; reflexivity.
  - reflexivity.
  - reflexivity.
  - reflexivity.
  - reflexivity.
  - reflexivity.
  - apply list_elem_of_In. simpl. by left.
  - reflexivity.
  - reflexivity.
  - reflexivity.
  - apply not_referenced. reflexivity.
  - apply not_referenced. reflexivity.
  - discriminate.
  - discriminate.
Defined.

Lemma rewrite_idempotent_witness :
  Copy1.rewrite user_document_rewritten = Return user_document_rewritten
  /\ Copy2.rewrite user_document_rewritten = Return user_document_rewritten.
Proof.
  assert (at_most_one (is_object_named "Query") user_document_rewritten) as Hone.
  { intros [|[|i]] [|[|k]] x y Hx Hy; simpl in Hx, Hy; try done;
      injection Hx as <-; injection Hy as <-; try done; discriminate. }
  assert (forall d, d ∈ user_document_rewritten ->
                    ~ helper_like "Mutation" d /\ ~ helper_like "Query" d) as Hno.
  { intros d Hd. apply list_elem_of_In in Hd. simpl in Hd.
    destruct Hd as [<- | [<- | []]]; split; intros Hlen%helper_like_length;
      simpl in Hlen; lia. }
  split.
  - apply (proj1 (rewrite_idempotent user_document user_document_rewritten Hone Hno)).
    reflexivity.
  - apply (proj2 (rewrite_idempotent user_document user_document_rewritten Hone Hno)).
    reflexivity.
Defined.

End ReclassificationClaim.

(** * The command line *)

Section CommandLineProperties.

Variable resolve : string -> string.
Variable parse : string -> option (list DefinitionNode).
Variable print : list DefinitionNode -> string.
Variable rewrite : list DefinitionNode -> Completion (list DefinitionNode).

Lemma flag_value_Some flag args v :
  flag_value flag args = Some v <->
  exists front rest, args = front ++ flag :: v :: rest /\ (flag ∉ front) /\ v <> "".
Proof.
  unfold flag_value, truthy_arg. split.
  - destruct (findIndex _ args) as [i|] eqn:Hi; [|done].
    apply findIndex_Some in Hi as [(x & Hx & ->%String.eqb_eq) Hlt].
    replace (i + 1)%nat with (S i) by lia.
    destruct (args !! S i) as [w|] eqn:Hw; [|done].
    destruct (String.eqb_spec w "") as [|Hne]; [done|]. intros [= ->].
    exists (take i args), (drop (S (S i)) args). split; [|split; [|done]].
    + rewrite <- (take_drop_middle args i flag Hx) at 1. do 2 f_equal.
      by apply drop_S.
    + intros [k Hk]%list_elem_of_lookup.
      pose proof (lookup_lt_Some _ _ _ Hk) as Hlen. rewrite length_take in Hlen.
      rewrite lookup_take_lt in Hk by lia.
      specialize (Hlt k flag ltac:(lia) Hk). by rewrite String.eqb_refl in Hlt.
  - intros (front & rest & -> & Hfront & Hv).
    assert (findIndex (fun arg => String.eqb arg flag) (front ++ flag :: v :: rest)
            = Some (length front)) as ->.
    { apply findIndex_Some. split.
      - exists flag. by rewrite list_lookup_middle, String.eqb_refl.
      - intros k y Hk Hy. rewrite lookup_app_l in Hy by done.
        apply String.eqb_neq. intros ->. apply Hfront.
        by apply list_elem_of_lookup_2 in Hy. }
    replace (length front + 1)%nat with (S (length front)) by lia.
    rewrite (lookup_app_r front) by lia.
    replace (S (length front) - length front)%nat with 1%nat by lia. simpl.
    by destruct (String.eqb_spec v "").
Qed.

Lemma startup_flag_values args :
  startup resolve args =
  match flag_value "-i" args with
  | Some input => Started (resolve input) (resolve <$> flag_value "-o" args)
  | None => UsageError
  end.
Proof.
  unfold startup, flag_value.
  destruct (findIndex (fun arg => String.eqb arg "-i") args) as [i|]; [|done].
  destruct (truthy_arg args (i + 1)) as [input|]; [|done]. f_equal.
  destruct (findIndex (fun arg => String.eqb arg "-o") args) as [o|]; [|done].
  by destruct (truthy_arg args (o + 1)).
Qed.

(** X1: the script starts exactly when the first [-i] among the arguments
    is followed by a non-empty argument, which becomes the input path; any
    other command line, one that spells the flag [--input] included, ends in
    the usage error. *)
Theorem startup_input_path :
  forall args,
    (forall inputFilePath outputFilePath,
        startup resolve args = Started inputFilePath outputFilePath ->
        exists front input rest,
          args = front ++ "-i" :: input :: rest /\ ("-i" ∉ front) /\ input <> ""
          /\ inputFilePath = resolve input)
    /\ (forall front input rest,
        args = front ++ "-i" :: input :: rest -> "-i" ∉ front -> input <> "" ->
        exists outputFilePath,
          startup resolve args = Started (resolve input) outputFilePath)
    /\ ("-i" ∉ args -> startup resolve args = UsageError).
Proof.
  intros args. rewrite startup_flag_values. split; [|split].
  - intros inp outp. destruct (flag_value "-i" args) as [input|] eqn:Hi; [|done].
    intros [= <- _]. apply flag_value_Some in Hi as (front & rest & ? & ? & ?).
    by exists front, input, rest.
  - intros front input rest Hargs Hfront Hinput.
    rewrite (proj2 (flag_value_Some "-i" args input)); [eauto|].
    by exists front, rest.
  - intros Hno. destruct (flag_value "-i" args) as [input|] eqn:Hi; [|done].
    apply flag_value_Some in Hi as (front & rest & -> & _). destruct Hno.
    apply elem_of_app. right. by left.
Qed.

Lemma startup_outputFilePath args inputFilePath outputFilePath :
  startup resolve args = Started inputFilePath outputFilePath ->
  outputFilePath = resolve <$> flag_value "-o" args.
Proof.
  rewrite startup_flag_values.
  destruct (flag_value "-i" args) as [input|]; [|done]. by intros [= _ <-].
Qed.

(** X2: a started script whose transformation returns a schema asks the
    file system to write that schema when the first [-o] among the
    arguments is followed by a non-empty argument, to the path resolved
    from that argument ([path.resolve] gives an absolute path, never the
    empty string) and with the callback that logs the success or the write
    error; in every other case (no [-o], [-o] as the last argument, [-o]
    followed by the empty string) it prints the schema to the console and
    writes nothing.  A run whose transformation throws only logs the
    error, whatever the arguments. *)
Theorem startup_output_path :
  forall args inputFilePath outputFilePath ast,
    startup resolve args = Started inputFilePath outputFilePath ->
    (forall schemaString,
        transform parse print rewrite ast = Return schemaString ->
        (forall front output rest,
            args = front ++ "-o" :: output :: rest -> "-o" ∉ front -> output <> "" ->
            resolve output <> "" ->
            main parse print rewrite outputFilePath ast
            = [writeFile (resolve output) schemaString
                 (writeFile_callback (resolve output))])
        /\ (~ (exists front output rest,
                  args = front ++ "-o" :: output :: rest /\ ("-o" ∉ front)
                  /\ output <> "") ->
            main parse print rewrite outputFilePath ast = [console_log schemaString]))
    /\ (forall parseError,
        transform parse print rewrite ast = Throw parseError ->
        main parse print rewrite outputFilePath ast = [console_error parseError]).
Proof.
  intros args inp outp ast ->%startup_outputFilePath. split.
  - intros schemaString Hrun. unfold main. rewrite Hrun. split.
    + intros front output rest Hargs Hfront Hne Hpath.
      rewrite (proj2 (flag_value_Some "-o" args output)); [|by exists front, rest].
      simpl. by destruct (String.eqb_spec (resolve output) "").
    + intros Hno. destruct (flag_value "-o" args) as [output|] eqn:Ho; [|done].
      destruct Hno. apply flag_value_Some in Ho as (front & rest & ? & ? & ?).
      by exists front, output, rest.
  - intros parseError Hrun. unfold main. by rewrite Hrun.
Qed.

End CommandLineProperties.

Lemma startup_input_path_witness :
  exists outputFilePath,
    startup (String.append "/work/") ["-o"; "schema.graphql"; "-i"; "types.tsx"]
    = Started "/work/types.tsx" outputFilePath.
Proof.
  apply (proj1 (proj2 (startup_input_path (String.append "/work/")
                         ["-o"; "schema.graphql"; "-i"; "types.tsx"]))
           ["-o"; "schema.graphql"] "types.tsx" []); [reflexivity| |discriminate].
  intros Hin. apply list_elem_of_In in Hin. simpl in Hin.
  destruct Hin as [? | [? | []]]; discriminate.
Defined.

Lemma startup_output_path_witness :
  main (fun _ => Some [object_type "Role" []]) (fun definitions => join LF (name <$> definitions))
    Copy2.rewrite (Some "/work/schema.graphql")
    [TSEnumDeclaration "Role" [Identifier "Admin"]]
  = [writeFile "/work/schema.graphql" "Role" (writeFile_callback "/work/schema.graphql")].
Proof.
  refine (proj1 (proj1 (startup_output_path (String.append "/work/")
                          (fun _ => Some [object_type "Role" []])
                          (fun definitions => join LF (name <$> definitions))
                          Copy2.rewrite
                          ["-i"; "types.tsx"; "-o"; "schema.graphql"] "/work/types.tsx"
                          (Some "/work/schema.graphql")
                          [TSEnumDeclaration "Role" [Identifier "Admin"]] eq_refl)
                   "Role" _)
            ["-i"; "types.tsx"] "schema.graphql" [] eq_refl _ _ _).
  - reflexivity.
  - intros Hin. apply list_elem_of_In in Hin. simpl in Hin.
    destruct Hin as [? | [? | []]]; discriminate.
  - discriminate.
  - discriminate.
Defined.

(** * More on the extraction stage *)

Section ExtractionProperties.

Lemma state_eta (st : ExtractState) :
  {| typeDefs := typeDefs st; mutationArgs := mutationArgs st |} = st.
Proof. by destruct st. Qed.

Lemma append_typeDefs_nil (st : ExtractState) : append_typeDefs st "" = st.
Proof. unfold append_typeDefs. rewrite append_nil_r. apply state_eta. Qed.

Lemma state_after_initial (st : ExtractState) : state_after st initial_state = st.
Proof.
  unfold state_after. simpl. rewrite append_nil_r, (left_id_L ∅ (∪)). apply state_eta.
Qed.

(** What visiting one node does, whatever the state: it throws, or it
    appends a fragment to [typeDefs] and writes at most one entry of
    [mutationArgs]. *)
Lemma visit_form (node : Node) :
  (exists e, forall st, visit st node = Throw e)
  \/ (exists fragment (entry : option (string * string)),
        (forall st, visit st node =
                    Return {| typeDefs := typeDefs st +:+ fragment;
                              mutationArgs :=
                                match entry with
                                | Some (k, v) => <[k := v]> (mutationArgs st)
                                | None => mutationArgs st
                                end |})
        /\ (forall k v, entry = Some (k, v) ->
              startsWith k "Mutation" = true /\ endsWith k "Args" = true
              /\ exists shape, node = TSTypeAliasDeclaration k shape
                               /\ generateArgumentsDefinition shape = Return v)).
Proof.
  destruct node as [tag quasis | id shape | id members]; simpl.
  - right. destruct (_ || _).
    + eexists _, None. split; [done | congruence].
    + exists "", None. split; [|congruence]. intros st.
      by rewrite <- (append_typeDefs_nil st) at 1.
  - destruct (startsWith id "Mutation" && endsWith id "Args") eqn:Hid.
    + apply andb_true_iff in Hid as [Hs He].
      destruct (generateArgumentsDefinition shape) as [args|e] eqn:Hargs; simpl;
        [|left; by exists e].
      destruct (String.eqb id "Scalars").
      * destruct (generateScalarsDefinition shape) as [fr|e]; simpl;
          [|left; by exists e].
        right. exists fr, (Some (id, args)). split; [done|].
        intros k v [= <- <-]. eauto.
      * destruct (generateTypeScriptDefinition shape) as [td|e]; simpl;
          [|left; by exists e].
        right. destruct (String.eqb td "").
        -- exists "", (Some (id, args)). split.
           ++ intros st. by rewrite append_nil_r.
           ++ intros k v [= <- <-]. eauto.
        -- eexists _, (Some (id, args)). split; [done|].
           intros k v [= <- <-]. eauto.
    + simpl. destruct (String.eqb id "Scalars").
      * destruct (generateScalarsDefinition shape) as [fr|e]; simpl;
          [|left; by exists e].
        right. exists fr, None. split; [done | congruence].
      * destruct (generateTypeScriptDefinition shape) as [td|e]; simpl;
          [|left; by exists e].
        right. destruct (String.eqb td "").
        -- exists "", None. split; [|congruence]. intros st.
           by rewrite <- (append_typeDefs_nil st) at 1.
        -- eexists _, None. split; [done | congruence].
  - destruct (mapM enum_member_name members) as [names|e]; simpl;
      [|left; by exists e].
    right. eexists _, None. split; [done | congruence].
Qed.

Lemma visit_Throw_any_state st st' node e :
  visit st node = Throw e -> visit st' node = Throw e.
Proof.
  destruct (visit_form node) as [[e' H] | (fr & entry & H & _)]; rewrite H; [|done].
  intros [= <-]. apply H.
Qed.

Lemma visit_state_after st0 st node st' :
  visit st node = Return st' ->
  visit (state_after st0 st) node = Return (state_after st0 st').
Proof.
  destruct (visit_form node) as [[e' H] | (fr & entry & H & _)]; rewrite !H; [done|].
  intros [= <-]. unfold state_after. simpl. rewrite append_assoc. do 2 f_equal.
  destruct entry as [[k v]|]; [|done]. by rewrite insert_union_l.
Qed.

Lemma traverse_state_after st0 ast st st' :
  forEach visit ast st = Return st' ->
  forEach visit ast (state_after st0 st) = Return (state_after st0 st').
Proof.
  revert st. induction ast as [|node ast IH]; intros st; simpl.
  - by intros [= <-].
  - intros (st1 & H1 & H2)%bind_Return_inv.
    rewrite (visit_state_after _ _ _ _ H1). simpl. by apply IH.
Qed.

Lemma traverse_Throw_any_state ast st st' e :
  forEach visit ast st = Throw e -> exists e', forEach visit ast st' = Throw e'.
Proof.
  revert st st'. induction ast as [|node ast IH]; intros st st'; simpl; [done|].
  destruct (visit st node) as [st1|e1] eqn:H1; simpl.
  - destruct (visit_form node) as [[e' H] | (fr & entry & H & _)].
    + rewrite H in H1. done.
    + rewrite (H st'). simpl. apply IH.
  - intros _. rewrite (visit_Throw_any_state _ st' _ _ H1). simpl. eauto.
Qed.

(** Extraction of a concatenation, from the extraction of the parts. *)
Lemma extract_app_cases :
  forall ast1 ast2,
    (forall st1 st2,
        extract ast1 = Return st1 -> extract ast2 = Return st2 ->
        extract (ast1 ++ ast2) = Return (state_after st1 st2))
    /\ (forall e, extract ast1 = Throw e -> extract (ast1 ++ ast2) = Throw e)
    /\ (forall st1 e,
        extract ast1 = Return st1 -> extract ast2 = Throw e ->
        extract (ast1 ++ ast2) = Throw TypeError).
Proof.
  intros ast1 ast2. unfold extract. rewrite forEach_app. split; [|split].
  - intros st1 st2 -> H2. simpl.
    rewrite <- (state_after_initial st1) at 1. by apply traverse_state_after.
  - by intros e ->.
  - intros st1 e -> H2. simpl.
    destruct (traverse_Throw_any_state _ _ st1 _ H2) as [e' He'].
    rewrite He'. f_equal. by apply (throws_only_forEach visit ast2 st1 visit_throws_only).
Qed.

(** X3: extracting two stretches of nodes one after the other gives the
    fragments of the first followed by those of the second, and the table
    of the second over that of the first; a throw in either stretch is a
    throw of the whole. *)
Theorem extract_app :
  forall ast1 ast2,
    (forall st1 st2,
        extract ast1 = Return st1 -> extract ast2 = Return st2 ->
        extract (ast1 ++ ast2) = Return (state_after st1 st2))
    /\ (forall e, extract ast1 = Throw e -> extract (ast1 ++ ast2) = Throw e)
    /\ (forall st1 e,
        extract ast1 = Return st1 -> extract ast2 = Throw e ->
        extract (ast1 ++ ast2) = Throw TypeError).
Proof. apply extract_app_cases. Qed.

(** A traversal throws just when one of its nodes, visited on its own,
    throws. *)
Lemma traverse_Throw_iff ast st :
  forEach visit ast st = Throw TypeError <->
  exists node, node ∈ ast /\ visit initial_state node = Throw TypeError.
Proof.
  revert st. induction ast as [|node ast IH]; intros st; simpl.
  - split; [done | by intros (? & ?%elem_of_nil & _)].
  - destruct (visit st node) as [st1|e1] eqn:H1; simpl.
    + rewrite IH. split.
      * intros (n & Hn & Hv). exists n. split; [by right | done].
      * intros (n & [-> | Hn]%elem_of_cons & Hv); [|eauto].
        by rewrite (visit_Throw_any_state _ st _ _ Hv) in H1.
    + pose proof (visit_throws_only st node e1 H1) as ->. split; [|done].
      intros _. exists node. split; [by left|].
      by apply (visit_Throw_any_state st).
Qed.

(** X4: the extraction stage throws exactly when some node, visited on its
    own, throws (a member typed [Maybe] without type arguments, a member of
    [Scalars] without key, an enum member named by a string literal, ...);
    the run then reports the [TypeError] and writes nothing, whatever the
    other declarations are. *)
Theorem extract_Throw_iff :
  forall ast,
    (extract ast = Throw TypeError <->
     exists node, node ∈ ast /\ visit initial_state node = Throw TypeError)
    /\ (forall parse print rewrite outputFilePath,
        extract ast = Throw TypeError ->
        main parse print rewrite outputFilePath ast = [console_error TypeError]).
Proof.
  intros ast. split; [apply traverse_Throw_iff|].
  intros parse print rewrite out H. unfold main, transform. by rewrite H.
Qed.

Lemma extract_app_witness :
  exists st1 st2,
    extract [TSEnumDeclaration "Role" [Identifier "admin"; Identifier "user"]] = Return st1
    /\ extract [TSTypeAliasDeclaration "MutationaddArgs" id_string_shape] = Return st2
    /\ extract ([TSEnumDeclaration "Role" [Identifier "admin"; Identifier "user"]]
                ++ [TSTypeAliasDeclaration "MutationaddArgs" id_string_shape])
       = Return (state_after st1 st2).
Proof.
  eexists _, _. split; [reflexivity|]. split; [reflexivity|].
  apply (proj1 (extract_app _ _)); reflexivity.
Defined.

Lemma extract_Throw_iff_witness :
  main (fun _ => None) (fun _ => "") Copy2.rewrite None
    [TSTypeAliasDeclaration "User" id_string_shape;
     TSTypeAliasDeclaration "Post"
       (TSTypeLiteral [TSPropertySignature (Some (Identifier "author"))
                         (Some (TSTypeReference (Identifier "Maybe") None)) true])]
  = [console_error TypeError].
Proof.
  apply (proj2 (extract_Throw_iff _)). reflexivity.
Defined.

(** ** When nothing is extracted *)

Lemma append_eq_nil (x y : string) : x +:+ y = "" <-> x = "" /\ y = "".
Proof.
  split; [|by intros [-> ->]]. destruct x; [by rewrite append_nil_l|].
  by rewrite append_cons.
Qed.

Lemma extract_cons node ast :
  extract (node :: ast) = (st ← visit initial_state node; forEach visit ast st).
Proof. reflexivity. Qed.

Lemma extract_empty_iff ast :
  (exists st, extract ast = Return st /\ typeDefs st = "") <->
  (forall node, node ∈ ast ->
                exists st, visit initial_state node = Return st /\ typeDefs st = "").
Proof.
  induction ast as [|node ast IH].
  - split; [by intros _ node ?%elem_of_nil | intros _; by exists initial_state].
  - change (node :: ast) with ([node] ++ ast).
    destruct (extract_app_cases [node] ast) as (Happ & Hthrow1 & Hthrow2).
    assert (extract [node] = visit initial_state node) as Hone.
    { unfold extract. simpl. by destruct (visit initial_state node). }
    rewrite Hone in *. split.
    + intros (st & Hst & Hempty) n Hn.
      destruct (visit initial_state node) as [s1|e1] eqn:H1;
        [|by rewrite (Hthrow1 e1) in Hst].
      destruct (extract ast) as [s2|e2] eqn:H2;
        [|by rewrite (Hthrow2 s1 e2) in Hst].
      rewrite (Happ s1 s2) in Hst by done. injection Hst as <-. simpl in Hempty.
      apply append_eq_nil in Hempty as [Hs1 Hs2].
      apply elem_of_cons in Hn as [-> | Hn]; [eauto|].
      apply (proj1 IH); eauto.
    + intros Hall. destruct (Hall node) as (s1 & H1 & Hs1); [by left|].
      destruct (proj2 IH) as (s2 & H2 & Hs2).
      { intros n Hn. apply Hall. by right. }
      exists (state_after s1 s2). rewrite H1 in *. split; [by apply Happ|].
      simpl. by rewrite Hs1, Hs2.
Qed.

(** X5: a run fails with [NoDefinitionsFound] exactly when every node,
    visited on its own, returns without a fragment.  An enum declaration or
    a template tagged [gql] or [graphql] always leaves a fragment, so a
    source that holds one never fails that way. *)
Theorem NoDefinitionsFound_per_node :
  forall parse print rewrite ast,
    rewrite = Copy1.rewrite \/ rewrite = Copy2.rewrite ->
    (transform parse print rewrite ast = Throw NoDefinitionsFound <->
     forall node, node ∈ ast ->
                  exists st, visit initial_state node = Return st /\ typeDefs st = "")
    /\ (forall id members,
        TSEnumDeclaration id members ∈ ast ->
        transform parse print rewrite ast <> Throw NoDefinitionsFound)
    /\ (forall tag quasis,
        TaggedTemplateExpression (Identifier tag) quasis ∈ ast ->
        tag = "gql" \/ tag = "graphql" ->
        transform parse print rewrite ast <> Throw NoDefinitionsFound).
Proof.
  intros parse print rewrite ast Hrw.
  assert (transform parse print rewrite ast = Throw NoDefinitionsFound <->
          forall node, node ∈ ast ->
                       exists st, visit initial_state node = Return st /\ typeDefs st = "")
    as Hiff.
  { rewrite <- extract_empty_iff. apply transform_NoDefinitionsFound.
    destruct Hrw as [-> | ->];
      [apply Copy1_rewrite_throws_only | apply Copy2_rewrite_throws_only]. }
  split; [done|]. split.
  - intros id members Hin Hfail.
    destruct (proj1 Hiff Hfail _ Hin) as (st & Hst & Hempty). simpl in Hst.
    destruct (mapM enum_member_name members); simpl in Hst; [|done].
    injection Hst as <-. simpl in Hempty. discriminate.
  - intros tag quasis Hin Htag Hfail.
    destruct (proj1 Hiff Hfail _ Hin) as (st & Hst & Hempty).
    destruct Htag as [-> | ->]; simpl in Hst; injection Hst as <-; simpl in Hempty;
      apply append_eq_nil in Hempty as [_ Hempty];
      apply append_eq_nil in Hempty as [_ ?]; discriminate.
Qed.

Lemma NoDefinitionsFound_per_node_witness :
  transform (fun _ => None) (fun _ => "") Copy1.rewrite
    [TSTypeAliasDeclaration "Empty" (TSTypeLiteral []);
     TSEnumDeclaration "Role" []]
  <> Throw NoDefinitionsFound.
Proof.
  apply (proj1 (proj2 (NoDefinitionsFound_per_node (fun _ => None) (fun _ => "")
                         Copy1.rewrite _ (or_introl eq_refl))) "Role" []).
  apply list_elem_of_In. simpl. auto.
Defined.

(** ** The table of argument lists *)

(** X6: every key of [mutationArgs] is the name of a visited type alias
    that starts with [Mutation] and ends with [Args], and its value is the
    argument list of a declaration of that name. *)
Theorem mutationArgs_entries :
  forall ast st k v,
    extract ast = Return st -> mutationArgs st !! k = Some v ->
    startsWith k "Mutation" = true /\ endsWith k "Args" = true
    /\ exists shape, TSTypeAliasDeclaration k shape ∈ ast
                     /\ generateArgumentsDefinition shape = Return v.
Proof.
  intros ast st k v Hst. revert k v.
  apply (forEach_invariant visit
           (fun st => forall k v, mutationArgs st !! k = Some v ->
              startsWith k "Mutation" = true /\ endsWith k "Args" = true
              /\ exists shape, TSTypeAliasDeclaration k shape ∈ ast
                               /\ generateArgumentsDefinition shape = Return v)
           ast) with (s := initial_state); [| |done].
  - intros s node s' Hnode IH.
    destruct (visit_form node) as [[e' H] | (fr & entry & H & Hentry)]; rewrite H;
      [done|].
    intros [= <-] k v. simpl. destruct entry as [[k' v']|]; [|apply IH].
    destruct (decide (k' = k)) as [-> | Hne].
    + rewrite lookup_insert_eq. intros [= <-].
      destruct (Hentry k v' eq_refl) as (? & ? & shape & -> & ?). eauto.
    + rewrite lookup_insert_ne by done. apply IH.
  - intros k v. simpl. by rewrite lookup_empty.
Qed.

Lemma mutationArgs_entries_witness :
  startsWith "MutationaddArgs" "Mutation" = true
  /\ endsWith "MutationaddArgs" "Args" = true
  /\ exists shape,
       TSTypeAliasDeclaration "MutationaddArgs" shape
       ∈ [TSTypeAliasDeclaration "QueryuserArgs" id_string_shape;
          TSTypeAliasDeclaration "MutationaddArgs" id_string_shape]
       /\ generateArgumentsDefinition shape = Return "(  id: String!)".
Proof.
  eapply (mutationArgs_entries
            [TSTypeAliasDeclaration "QueryuserArgs" id_string_shape;
             TSTypeAliasDeclaration "MutationaddArgs" id_string_shape]);
    reflexivity.
Defined.

End ExtractionProperties.

(** * More on the declaration lowerers *)

Section LoweringProperties.

Lemma mapM_cons {A B} (f : A -> Completion B) (x : A) (xs : list A) :
  mapM f (x :: xs) = (y ← f x; ys ← mapM f xs; Return (y :: ys)).
Proof. reflexivity. Qed.

Lemma mapM_key_names members ks :
  Forall2 (fun m k => key_of m = Some (Identifier k)) members ks ->
  mapM member_key_name members = Return (JSString <$> ks).
Proof.
  induction 1 as [|m k members ks Hk _ IH]; [done|].
  rewrite mapM_cons, IH. unfold member_key_name. by rewrite Hk.
Qed.

Lemma join_item_strings (ks : list string) : join_item <$> (JSString <$> ks) = ks.
Proof. induction ks as [|k ks IH]; [done|]. by rewrite !fmap_cons, IH. Qed.

Lemma mapM_Throw {A B} (f : A -> Completion B) (xs : list A) x :
  (forall y, throws_only_TypeError (f y)) ->
  x ∈ xs -> f x = Throw TypeError -> mapM f xs = Throw TypeError.
Proof.
  intros Hf Hx Hfx. induction xs as [|y xs IH]; [by apply elem_of_nil in Hx|].
  rewrite mapM_cons. destruct (f y) as [b|e] eqn:Hy; simpl.
  - apply elem_of_cons in Hx as [-> | Hx]; [congruence|].
    by rewrite (IH Hx).
  - by rewrite (Hf y e Hy).
Qed.

Lemma member_key_name_throws_only m : throws_only_TypeError (member_key_name m).
Proof.
  unfold member_key_name. destruct (key_of m); [apply throws_only_Return|].
  by intros e [= <-].
Qed.

(** X7: a [Scalars] alias with an object-literal shape is lowered to one
    [scalar] line per member, from the member keys alone (the member types
    are not looked at), and never to a [type Scalars] block; a member
    without key (an index signature) makes the visit throw, and any other
    shape leaves the state as it is. *)
Theorem Scalars_alias_lowering :
  forall st,
    (forall members ks,
        members <> [] ->
        Forall2 (fun m k => key_of m = Some (Identifier k)) members ks ->
        visit st (TSTypeAliasDeclaration "Scalars" (TSTypeLiteral members))
        = Return (append_typeDefs st
                    ("scalar " +:+ join (LF +:+ " scalar ") ks +:+ LF)))
    /\ (forall members m,
        m ∈ members -> key_of m = None ->
        visit st (TSTypeAliasDeclaration "Scalars" (TSTypeLiteral members))
        = Throw TypeError)
    /\ (forall shape,
        is_type_literal shape = false ->
        visit st (TSTypeAliasDeclaration "Scalars" shape) = Return st).
Proof.
  intros st. split; [|split].
  - intros members ks Hne Hkeys. simpl.
    destruct members as [|m members]; [done|].
    change (0 <? length (m :: members))%nat with true. cbv iota.
    rewrite (mapM_key_names _ _ Hkeys). simpl. by rewrite join_item_strings.
  - intros members m Hm Hkey. simpl.
    destruct members as [|m0 members]; [by apply elem_of_nil in Hm|].
    change (0 <? length (m0 :: members))%nat with true. cbv iota.
    rewrite (mapM_Throw member_key_name _ m member_key_name_throws_only Hm); [done|].
    unfold member_key_name. by rewrite Hkey.
  - intros shape Hshape.
    destruct shape; try discriminate; simpl; by rewrite append_typeDefs_nil.
Qed.

Lemma Scalars_alias_lowering_witness :
  visit initial_state
    (TSTypeAliasDeclaration "Scalars"
       (TSTypeLiteral
          [TSPropertySignature (Some (Identifier "DateTime")) (Some TSStringKeyword) false;
           TSPropertySignature (Some (Identifier "JSON")) (Some TSAnyKeyword) false]))
  = Return (append_typeDefs initial_state
              ("scalar " +:+ join (LF +:+ " scalar ") ["DateTime"; "JSON"] +:+ LF)).
Proof.
  apply (proj1 (Scalars_alias_lowering initial_state)); [discriminate|].
  repeat constructor.
Defined.

Lemma find_type_literal_first front members rest :
  Forall (fun t => is_type_literal t = false) front ->
  find_type_literal (front ++ TSTypeLiteral members :: rest) = Some members.
Proof.
  induction 1 as [|t front Ht _ IH]; [done|]. simpl. by destruct t.
Qed.

Lemma find_type_literal_none types :
  Forall (fun t => is_type_literal t = false) types -> find_type_literal types = None.
Proof. induction 1 as [|t types Ht _ IH]; [done|]. simpl. by destruct t. Qed.

(** X8: of an intersection shape only the first object-literal part is
    lowered: what follows it is ignored, also when the first literal is
    empty and a later one is not, and an intersection without a literal
    part gives nothing.  The argument list recorded for an intersection
    starts with [(n] where the list of the literal alone starts with [(]. *)
Theorem intersection_first_literal :
  forall front members rest,
    Forall (fun t => is_type_literal t = false) front ->
    generateTypeScriptDefinition (TSIntersectionType (front ++ TSTypeLiteral members :: rest))
    = generateTypeScriptDefinition (TSTypeLiteral members)
    /\ (forall ms,
        members <> [] -> mapM generateMember members = Return ms ->
        generateArgumentsDefinition (TSTypeLiteral members)
        = Return ("(" +:+ join ", " ms +:+ ")")
        /\ generateArgumentsDefinition
             (TSIntersectionType (front ++ TSTypeLiteral members :: rest))
           = Return ("(n" +:+ join ", " ms +:+ ")"))
    /\ generateTypeScriptDefinition (TSIntersectionType front) = Return ""
    /\ generateArgumentsDefinition (TSIntersectionType front) = Return "".
Proof.
  intros front members rest Hfront. split; [|split; [|split]].
  - simpl. by rewrite (find_type_literal_first _ _ _ Hfront).
  - intros ms Hne Hms. simpl. rewrite (find_type_literal_first _ _ _ Hfront).
    destruct members as [|m members]; [done|].
    change (0 <? length (m :: members))%nat with true. cbv iota.
    by rewrite Hms.
  - simpl. by rewrite (find_type_literal_none _ Hfront).
  - simpl. by rewrite (find_type_literal_none _ Hfront).
Qed.

Lemma intersection_first_literal_witness :
  generateTypeScriptDefinition
    (TSIntersectionType
       [TSTypeReference (Identifier "Base") None;
        TSTypeLiteral [];
        id_string_shape])
  = generateTypeScriptDefinition (TSTypeLiteral []).
Proof.
  apply (proj1 (intersection_first_literal
                  [TSTypeReference (Identifier "Base") None] [] [id_string_shape]
                  ltac:(repeat constructor))).
Defined.

(** X9: [generateType] returns a value exactly on the shapes in which a
    [Maybe] or [Array] reference, and everything it wraps down to the first
    other shape, carries a type-argument list, and an indexed access has a
    type reference as its object type; on every other shape it throws a
    [TypeError]. *)
Theorem generateType_throws_iff :
  forall t,
    (reads_defined t = true <-> exists v, generateType t = Return v)
    /\ (reads_defined t = false <-> generateType t = Throw TypeError).
Proof.
  intros t. pose proof (generateType_returns_iff t) as Hiff. split; [done|].
  destruct (generateType t) as [v|e] eqn:Ht.
  - split; [|done]. intros Hf. rewrite (proj2 Hiff) in Hf; [done | eauto].
  - pose proof (generateType_throws_only t e Ht) as ->. split; [done|]. intros _.
    destruct (reads_defined t); [|done]. by destruct (proj1 Hiff eq_refl).
Qed.

End LoweringProperties.

(** * More on the visitors *)

Section Visitors.

Lemma mapM_enum_names (names : list string) :
  mapM enum_member_name (Identifier <$> names) = Return (toUpperCase <$> names).
Proof.
  induction names as [|n names IH]; [done|].
  rewrite !fmap_cons, mapM_cons, IH. done.
Qed.

Lemma enum_member_name_throws_only id : throws_only_TypeError (enum_member_name id).
Proof.
  unfold enum_member_name. destruct (node_name id); try apply throws_only_Return;
    by intros e [= <-].
Qed.

(** X17: an enum declaration whose members are named by identifiers made
    of ASCII characters is lowered to one [enum] block that lists the
    member names in source order, each with its letters a-z in upper case,
    separated by a comma and a space; one member named by a string literal
    makes the visit throw. *)
Theorem enum_lowering :
  forall st id,
    (forall names,
        Forall (fun name => ascii_only name = true) names ->
        visit st (TSEnumDeclaration id (Identifier <$> names))
        = Return (append_typeDefs st
                    ("enum " +:+ id +:+ " {" +:+ LF
                     +:+ join ", " (toUpperCase <$> names) +:+ LF +:+ "}" +:+ LF)))
    /\ (forall members value,
        StringLiteral value ∈ members ->
        visit st (TSEnumDeclaration id members) = Throw TypeError).
Proof.
  intros st id. split.
  - intros names _. simpl. by rewrite mapM_enum_names.
  - intros members value Hin. simpl.
    by rewrite (mapM_Throw enum_member_name members (StringLiteral value)
                  enum_member_name_throws_only Hin eq_refl).
Qed.

Lemma enum_lowering_witness :
  visit initial_state (TSEnumDeclaration "Role" [Identifier "Admin"; Identifier "guest_2"])
  = Return {| typeDefs := "enum Role {" +:+ LF +:+ "ADMIN, GUEST_2" +:+ LF +:+ "}" +:+ LF;
              mutationArgs := ∅ |}
  /\ visit initial_state
       (TSEnumDeclaration "Role" [Identifier "Admin"; StringLiteral "guest-user"])
     = Throw TypeError.
Proof.
  split.
  - apply (proj1 (enum_lowering initial_state "Role") ["Admin"; "guest_2"]).
    repeat constructor.
  - apply (proj2 (enum_lowering initial_state "Role") _ "guest-user").
    apply list_elem_of_In. simpl. auto.
Defined.

(** X18: an alias whose shape is neither an object literal nor an
    intersection (a keyword, a union, a reference, ...) leaves no
    fragment, whatever its name; if the name starts with [Mutation] and
    ends with [Args] the empty string is recorded for it, otherwise the
    state is as before. *)
Theorem alias_of_other_shape_skipped :
  forall st id shape,
    is_type_literal shape = false -> is_intersection shape = false ->
    visit st (TSTypeAliasDeclaration id shape)
    = Return (if startsWith id "Mutation" && endsWith id "Args"
              then {| typeDefs := typeDefs st;
                      mutationArgs := <[id := ""]> (mutationArgs st) |}
              else st).
Proof.
  intros st id shape Hlit Hint.
  assert (generateArgumentsDefinition shape = Return ""
          /\ generateTypeScriptDefinition shape = Return ""
          /\ generateScalarsDefinition shape = Return "") as (Ha & Ht & Hs).
  { by destruct shape. }
  unfold visit. rewrite Ha, Ht, Hs.
  destruct (startsWith id "Mutation" && endsWith id "Args"); simpl;
    destruct (String.eqb id "Scalars"); simpl; try done;
    by rewrite append_typeDefs_nil.
Qed.

Lemma alias_of_other_shape_skipped_witness :
  visit initial_state
    (TSTypeAliasDeclaration "ID" (TSUnionType [TSStringKeyword; TSNumberKeyword]))
  = Return initial_state.
Proof.
  apply (alias_of_other_shape_skipped initial_state "ID"); reflexivity.
Defined.

End Visitors.

(** * More on the rewrite pass *)

Section RewriteProperties.

Implicit Types ds s parsed out : list DefinitionNode.

Lemma findIndexM_scan {A} (p : A -> Completion bool) (q : A -> bool) (l : list A) :
  (forall x, p x = if q x then Throw TypeError else Return false) ->
  findIndexM p l = if existsb q l then Throw TypeError else Return None.
Proof.
  intros H. induction l as [|x l IH]; [done|]. simpl. rewrite H.
  destruct (q x); simpl; [done|]. rewrite IH. by destruct (existsb q l).
Qed.

Lemma existsb_object ds :
  existsb (fun d => bool_decide (kind d = ObjectTypeDefinition)) ds = true <->
  exists d, d ∈ ds /\ kind d = ObjectTypeDefinition.
Proof.
  rewrite List.existsb_exists. split.
  - intros (d & Hd%list_elem_of_In & Hk%bool_decide_eq_true). eauto.
  - intros (d & Hd%list_elem_of_In & Hk). exists d. by rewrite bool_decide_eq_true.
Qed.

(** When the argument handler of the first revision throws. *)
Lemma Copy1_change_cases :
  forall ds arg,
    (Copy1.change_argument_type ds arg = Throw TypeError <->
     wrapped_name (ftype arg) = None
     /\ exists d, d ∈ ds /\ kind d = ObjectTypeDefinition)
    /\ (wrapped_name (ftype arg) = None ->
        (forall d, d ∈ ds -> kind d <> ObjectTypeDefinition) ->
        Copy1.change_argument_type ds arg = Return ds).
Proof.
  intros ds arg. unfold Copy1.change_argument_type. rewrite Copy1_name_value.
  destruct (wrapped_name (ftype arg)) as [n|] eqn:Hn.
  - rewrite (findIndexM_pure _ (is_object_named n)).
    + simpl. split; [|done]. split; [by destruct (findIndex _ ds) | by intros [? _]].
    + intros def. unfold is_object_named. by destruct (bool_decide _).
  - rewrite (findIndexM_scan _ (fun d => bool_decide (kind d = ObjectTypeDefinition)))
      by (intros def; by destruct (bool_decide _)).
    rewrite <- existsb_object.
    destruct (existsb _ ds) eqn:Hex; simpl.
    + split; [done|]. intros _ Hno.
      apply existsb_object in Hex as (d & Hd & Hk). by destruct (Hno d Hd).
    + split; [split; [done | by intros [_ ?]] | done].
Qed.

(** X10: the argument handler of the first revision throws exactly when
    the argument's type is not a name under one wrapper (a bare named type,
    a list of non-null, ...) while some definition is still an object type;
    with such a type and no object type left it does nothing. *)
Theorem Copy1_change_Throw_iff :
  forall ds arg,
    (Copy1.change_argument_type ds arg = Throw TypeError <->
     wrapped_name (ftype arg) = None
     /\ exists d, d ∈ ds /\ kind d = ObjectTypeDefinition)
    /\ (wrapped_name (ftype arg) = None ->
        (forall d, d ∈ ds -> kind d <> ObjectTypeDefinition) ->
        Copy1.change_argument_type ds arg = Return ds).
Proof. apply Copy1_change_cases. Qed.

Lemma Copy1_change_Throw_iff_witness :
  Copy1.change_argument_type [] (plain_field "id" (NamedType "ID")) = Return [].
Proof.
  apply (proj2 (Copy1_change_Throw_iff [] (plain_field "id" (NamedType "ID"))));
    [reflexivity|].
  intros d Hd. by apply elem_of_nil in Hd.
Defined.

(** ** Where the definitions of the output come from *)

Lemma evolves_comes_from N x y : evolves N x y -> comes_from x y.
Proof.
  intros (Hn & Hk & Hf). split; [done|]. split; [|done].
  destruct Hk as [? | (? & ? & _)]; auto.
Qed.

Lemma elem_of_reposition parsed x : x ∈ reposition parsed <-> x ∈ parsed.
Proof.
  unfold reposition.
  destruct (findIndex (is_object_named "Query") parsed) as [qi|]; [|done].
  destruct (parsed !! qi) as [q|] eqn:Hq; [|done].
  rewrite (delete_Permutation parsed qi q Hq) at 2.
  rewrite elem_of_app, !elem_of_cons, elem_of_nil. tauto.
Qed.

Lemma length_reposition parsed : length (reposition parsed) = length parsed.
Proof.
  unfold reposition.
  destruct (findIndex (is_object_named "Query") parsed) as [qi|]; [|done].
  destruct (parsed !! qi) as [q|] eqn:Hq; [|done].
  rewrite length_app, length_delete by eauto. simpl.
  apply lookup_lt_Some in Hq. lia.
Qed.

Lemma pruned_by_name (pruned : DefinitionNode -> bool) x y :
  (pruned = Copy1.pruned \/ pruned = Copy2.pruned) ->
  name y = name x -> pruned y = pruned x.
Proof. intros [-> | ->] Hn; unfold Copy1.pruned, Copy2.pruned; by rewrite Hn. Qed.

Lemma Forall2_filter_agree {A} (R : A -> A -> Prop) (p : A -> bool) (l k : list A) :
  (forall x y, R x y -> p y = p x) ->
  Forall2 R l k -> Forall2 R (List.filter p l) (List.filter p k).
Proof.
  intros Hp. induction 1 as [|x y l k Hxy _ IH]; simpl; [constructor|].
  rewrite (Hp x y Hxy). destruct (p x); [by constructor | done].
Qed.

Lemma updates_in_place (pruned : DefinitionNode -> bool) parsed s :
  (pruned = Copy1.pruned \/ pruned = Copy2.pruned) ->
  rtc update (reposition parsed) s ->
  Forall2 comes_from (List.filter (fun d => negb (pruned d)) (reposition parsed))
    (List.filter (fun d => negb (pruned d)) s).
Proof.
  intros Hp Hev%updates_Evolves. apply Forall2_filter_agree.
  - intros x y [Hn _]. f_equal. by apply pruned_by_name.
  - eapply Forall2_impl; [exact Hev|]. intros x y. apply evolves_comes_from.
Qed.

Lemma Forall2_snoc_last {A} (R : A -> A -> Prop) (l k : list A) (x : A) :
  Forall2 R (l ++ [x]) k -> exists y, last k = Some y /\ R x y.
Proof.
  intros (k1 & k2 & _ & H2 & ->)%Forall2_app_inv_l.
  apply Forall2_cons_inv_l in H2 as (y & k3 & Hxy & ->%Forall2_nil_inv_l & ->).
  exists y. by rewrite last_snoc.
Qed.

(** X13: the output is the pruned, repositioned input, definition by
    definition and in the same order.  The input with its first object type
    named [Query] moved to the end, filtered by the prune patterns, lines
    up with the output: each definition of the output stands at the place
    of a definition of the same name, whose kind is unchanged unless an
    object type became an input type and whose fields are unchanged up to
    the argument lists of [Query] and [Mutation].  So a run invents,
    drops, duplicates and reorders nothing beyond that, and the first
    object type named [Query] is what the last definition of the output
    comes from. *)
Theorem rewrite_provenance :
  forall parsed out,
    (Copy1.rewrite parsed = Return out ->
     Forall2 comes_from (Copy1.prune (reposition parsed)) out)
    /\ (Copy2.rewrite parsed = Return out ->
        Forall2 comes_from (Copy2.prune (reposition parsed)) out)
    /\ match findIndex (is_object_named "Query") parsed with
       | Some queryIndex =>
           exists queryDef,
             parsed !! queryIndex = Some queryDef
             /\ reposition parsed = delete queryIndex parsed ++ [queryDef]
             /\ (Copy1.rewrite parsed = Return out \/ Copy2.rewrite parsed = Return out ->
                 exists y, last out = Some y /\ comes_from queryDef y)
       | None => reposition parsed = parsed
       end.
Proof.
  intros parsed out.
  assert (Copy1.rewrite parsed = Return out ->
          Forall2 comes_from (Copy1.prune (reposition parsed)) out) as H1.
  { intros (s & Hupd & ->)%Copy1_rewrite_updates. rewrite !Copy1_prune_filter.
    apply updates_in_place; auto. }
  assert (Copy2.rewrite parsed = Return out ->
          Forall2 comes_from (Copy2.prune (reposition parsed)) out) as H2.
  { intros (s & Hupd & ->)%Copy2_rewrite_updates. rewrite !Copy2_prune_filter.
    apply updates_in_place; auto. }
  split; [done|]. split; [done|].
  destruct (findIndex (is_object_named "Query") parsed) as [qi|] eqn:Hqi.
  - apply reposition_Some in Hqi as (q & Hq & _ & Hname & Hre).
    exists q. split; [done|]. split; [done|]. rewrite Hre in H1, H2.
    rewrite (proj1 (prune_snoc_Query _ q Hname)) in H1.
    rewrite (proj2 (prune_snoc_Query _ q Hname)) in H2.
    intros [Hrun | Hrun]; eapply Forall2_snoc_last; eauto.
  - by apply reposition_None.
Qed.

Lemma rewrite_provenance_witness :
  Forall2 comes_from (Copy2.prune (reposition user_document)) user_document_rewritten.
Proof.
  apply (proj1 (proj2 (rewrite_provenance user_document user_document_rewritten))).
  reflexivity.
Defined.

(** ** Documents with nothing to bind *)

Lemma bind_pass_no_operation change op ds :
  (forall d, d ∈ ds -> is_object_named op d = false) ->
  bind_pass change op ds = Return ds.
Proof.
  intros Hno. unfold bind_pass. by rewrite (proj2 (findIndex_None _ ds) Hno).
Qed.

(** X14: where there is nothing to bind, a run that returns has only
    pruned.  The output of a document without object types named [Query]
    and [Mutation] is the pruned input, and the output of a document in
    which no name equals [Query<f>Args] or [Mutation<f>Args] up to letter
    case is the pruned, repositioned input: no kind and no argument list
    has changed. *)
Theorem rewrite_without_binding :
  forall parsed out,
    ((forall d, d ∈ parsed -> is_object_named "Query" d = false
                              /\ is_object_named "Mutation" d = false) ->
     (Copy1.rewrite parsed = Return out -> out = Copy1.prune parsed)
     /\ (Copy2.rewrite parsed = Return out -> out = Copy2.prune parsed))
    /\ ((forall d, d ∈ parsed -> ~ helper_like "Query" d /\ ~ helper_like "Mutation" d) ->
        (Copy1.rewrite parsed = Return out -> out = Copy1.prune (reposition parsed))
        /\ (Copy2.rewrite parsed = Return out -> out = Copy2.prune (reposition parsed))).
Proof.
  intros parsed out. split.
  - intros Hno. unfold Copy1.rewrite, Copy2.rewrite.
    rewrite reposition_None
      by (apply findIndex_None; intros d Hd; by destruct (Hno d Hd)).
    rewrite !bind_pass_no_operation by (intros d Hd; by destruct (Hno d Hd)). simpl.
    rewrite !bind_pass_no_operation by (intros d Hd; by destruct (Hno d Hd)).
    split; by intros [= <-].
  - intros Hno. unfold Copy1.rewrite, Copy2.rewrite.
    rewrite !bind_pass_no_helper
      by (intros d Hd; apply (proj1 (elem_of_reposition parsed d)) in Hd;
          by destruct (Hno d Hd)). simpl.
    rewrite !bind_pass_no_helper
      by (intros d Hd; apply (proj1 (elem_of_reposition parsed d)) in Hd;
          by destruct (Hno d Hd)).
    split; by intros [= <-].
Qed.

Lemma rewrite_without_binding_witness :
  [object_type "Mutation" []; object_type "User" []; object_type "Query" []]
  = Copy1.prune (reposition Mutation_first_document).
Proof.
  apply (proj1 (proj2 (rewrite_without_binding Mutation_first_document
                         [object_type "Mutation" []; object_type "User" [];
                          object_type "Query" []])
                  ltac:(intros d Hd; apply list_elem_of_In in Hd; simpl in Hd;
                        destruct Hd as [<- | [<- | [<- | []]]]; split;
                        intros Hlen%helper_like_length; simpl in Hlen; lia))).
  reflexivity.
Defined.

End RewriteProperties.

(** * What a binding pass writes *)

Section Binding.

Implicit Types ds s parsed out : list DefinitionNode.

Lemma field_at_alter_kind ds i0 i k :
  field_at (alter InputObject i0 ds) i k = field_at ds i k.
Proof.
  unfold field_at. rewrite list_lookup_alter. case_decide; [subst|done].
  by destruct (ds !! i).
Qed.

Lemma field_at_reclassify n ds i k : field_at (reclassify n ds) i k = field_at ds i k.
Proof.
  unfold reclassify. destruct (findIndex _ ds); [apply field_at_alter_kind | done].
Qed.

Lemma field_at_set_other ds oi j args i k :
  i <> oi \/ k <> j ->
  field_at (alter (set_field_arguments j args) oi ds) i k = field_at ds i k.
Proof.
  intros Hne. unfold field_at. rewrite list_lookup_alter.
  case_decide as Hi; [subst|done]. destruct (ds !! i) as [d|]; [|done]. simpl.
  destruct Hne as [? | Hk]; [done|]. by rewrite list_lookup_alter_ne.
Qed.

Lemma field_at_set ds oi j args :
  field_at (alter (set_field_arguments j args) oi ds) oi j
  = set_arguments args <$> field_at ds oi j.
Proof.
  unfold field_at. rewrite list_lookup_alter_eq.
  destruct (ds !! oi) as [d|]; [|done]. simpl. by rewrite list_lookup_alter_eq.
Qed.

Section Generic.

Variable change :
  list DefinitionNode -> FieldDefinition -> Completion (list DefinitionNode).
Hypothesis change_ok : handler_ok change.

Lemma handlers_field_at args ds ds' i k :
  forEach change args ds = Return ds' -> field_at ds' i k = field_at ds i k.
Proof.
  apply (forEach_invariant change (fun s => field_at s i k = field_at ds i k)); [|done].
  intros s arg s' _ Hs [-> | (n & _ & ->)]%change_ok; [done|].
  by rewrite field_at_reclassify.
Qed.

Lemma bind_field_other op oi ds j field ds' i k :
  i <> oi \/ k <> j ->
  bind_field change op oi ds (j, field) = Return ds' ->
  field_at ds' i k = field_at ds i k.
Proof.
  intros Hne. unfold bind_field.
  destruct (find_args op field ds) as [ai|]; [|by intros [= <-]].
  intros ->%(handlers_field_at _ _ _ i k). by apply field_at_set_other.
Qed.

Lemma bind_field_bound op oi ds j field ai a ds' :
  find_args op field ds = Some ai -> ds !! ai = Some a ->
  bind_field change op oi ds (j, field) = Return ds' ->
  field_at ds' oi j = set_arguments (fields a) <$> field_at ds oi j.
Proof.
  intros Hai Ha. unfold bind_field. rewrite Hai, Ha. simpl.
  intros ->%(handlers_field_at _ _ _ oi j). apply field_at_set.
Qed.

Lemma bind_fields_other op oi jfields ds ds' i k :
  (forall jf, jf ∈ jfields -> i <> oi \/ k <> jf.1) ->
  forEach (bind_field change op oi) jfields ds = Return ds' ->
  field_at ds' i k = field_at ds i k.
Proof.
  intros Hne.
  apply (forEach_invariant _ (fun s => field_at s i k = field_at ds i k)); [|done].
  intros s [j field] s' Hin Hs Hbody. rewrite <- Hs.
  apply (bind_field_other op oi s j field); [|done]. by apply (Hne (j, field)).
Qed.

(** The pass for another operation type leaves the fields of a definition
    alone. *)
Lemma bind_pass_other op' ds ds' i k :
  (forall d, ds !! i = Some d -> name d <> op') ->
  bind_pass change op' ds = Return ds' ->
  field_at ds' i k = field_at ds i k.
Proof.
  intros Hname. unfold bind_pass.
  destruct (findIndex (is_object_named op') ds) as [oi|] eqn:Hoi; [|by intros [= <-]].
  apply findIndex_lookup in Hoi as (o & Ho & Hp).
  apply andb_true_iff in Hp as [_ Hn%String.eqb_eq].
  apply bind_fields_other. intros jf _. left. intros ->. by apply (Hname o).
Qed.

Lemma imap_pair_split {A} (l : list A) (xs1 xs2 : list (nat * A)) j x :
  imap pair l = xs1 ++ (j, x) :: xs2 ->
  forall jf, jf ∈ xs1 ++ xs2 -> jf.1 <> j.
Proof.
  intros Hsplit jf Hin Heq.
  assert (NoDup ((imap pair l).*1)) as Hnd.
  { rewrite fmap_imap. rewrite (imap_ext _ (fun i _ => id i)) by done.
    rewrite (imap_seq_0 l id), list_fmap_id. apply NoDup_seq. }
  rewrite Hsplit, fmap_app, fmap_cons in Hnd. simpl in Hnd.
  apply NoDup_app in Hnd as (_ & Hdisj & [Hnot _]%NoDup_cons).
  apply elem_of_app in Hin as [Hin | Hin].
  - apply (Hdisj j); [|by left]. rewrite <- Heq. by apply list_elem_of_fmap_2.
  - apply Hnot. rewrite <- Heq. by apply list_elem_of_fmap_2.
Qed.

Lemma find_args_None_stable ds s op field field' :
  Evolves ds s -> find_args op field ds = None -> fname field' = fname field ->
  find_args op field' s = None.
Proof.
  intros Hev Hnone Hf. unfold find_args in *. rewrite Hf.
  apply findIndex_None. intros y [i Hy]%list_elem_of_lookup.
  destruct (Evolves_lookup_r _ _ _ _ Hev Hy) as (x & Hx & Hn & Hk & _).
  pose proof (proj1 (findIndex_None _ _) Hnone x (list_elem_of_lookup_2 _ _ _ Hx)) as Hpx.
  simpl in Hpx. rewrite Hn. destruct (String.eqb _ _); [|apply andb_false_r].
  rewrite andb_true_r in *. apply bool_decide_eq_false in Hpx.
  apply bool_decide_eq_false. destruct Hk as [-> | (? & _)]; done.
Qed.

(** What the pass for [op] leaves at field [j] of the definition it works
    on: the field with the helper's fields as arguments when a helper is
    found, the field as it was otherwise. *)
Lemma pass_field ds s0 s1 op oi j field :
  op = "Query" \/ op = "Mutation" ->
  Evolves ds s0 ->
  findIndex (is_object_named op) s0 = Some oi ->
  field_at s0 oi j = Some field ->
  (forall ai a, find_args op field ds = Some ai -> ds !! ai = Some a ->
                ~ referenced (name a) ds) ->
  bind_pass change op s0 = Return s1 ->
  field_at s1 oi j =
  Some match find_args op field ds with
       | Some ai => set_arguments (from_option fields [] (ds !! ai)) field
       | None => field
       end.
Proof.
  intros Hop Hev Hoi Hfield Hra. unfold bind_pass. rewrite Hoi.
  pose proof Hoi as (o0 & Ho0 & Hp)%findIndex_lookup.
  apply andb_true_iff in Hp as [_ Hname%String.eqb_eq].
  rewrite Ho0. simpl. intros Hloop.
  assert (fields o0 !! j = Some field) as Hj.
  { unfold field_at in Hfield. by rewrite Ho0 in Hfield. }
  assert ((j, field) ∈ imap pair (fields o0)) as Hin.
  { by apply (elem_of_lookup_imap_2 pair). }
  destruct (forEach_split _ _ _ _ _ Hin Hloop)
    as (fs1 & fs2 & sa & sb & Hsplit & H1 & Hbody & H2).
  pose proof (imap_pair_split _ _ _ _ _ Hsplit) as Hidx.
  assert (field_at sa oi j = Some field) as Hsa_field.
  { rewrite <- Hfield. apply (bind_fields_other op oi fs1); [|done].
    intros jf Hjf. right. intros ->. apply (Hidx jf); [|done].
    apply elem_of_app. by left. }
  assert (field_at s1 oi j = field_at sb oi j) as ->.
  { apply (bind_fields_other op oi fs2); [|done].
    intros jf Hjf. right. intros ->. apply (Hidx jf); [|done].
    apply elem_of_app. by right. }
  assert (Evolves ds sa) as Hev_a.
  { eapply Evolves_trans; [done|]. apply updates_Evolves.
    apply (bind_fields_update _ change_ok op oi _ fs1); [done| |done]. eauto. }
  destruct (find_args op field ds) as [ai|] eqn:Hai.
  - pose proof Hai as (a & Ha & _)%findIndex_lookup. rewrite Ha. simpl.
    destruct (Evolves_lookup _ _ _ _ Hev_a Ha) as (aa & Haa & _ & _ & Hfa).
    destruct (helper_not_operation _ _ _ _ _ Hop Hai Ha) as [HnQ HnM].
    assert (fields aa = fields a) as Hfields
      by (destruct Hfa as [? | [[? | ?] _]]; done).
    assert (find_args op field sa = Some ai) as Hai_a.
    { apply (find_args_stable ds sa op field field ai a Hev_a Hai Ha
               (Hra ai a eq_refl Ha) eq_refl). }
    rewrite (bind_field_bound op oi sa j field ai aa sb Hai_a Haa Hbody).
    by rewrite Hsa_field, Hfields.
  - rewrite <- Hsa_field. unfold bind_field in Hbody.
    rewrite (find_args_None_stable ds sa op field field Hev_a Hai eq_refl) in Hbody.
    by injection Hbody as <-.
Qed.

End Generic.

(** Two passes in a row, for two different operation types. *)
Lemma two_passes_field c1 c2 op1 op2 ds s1 s2 op oi o j field :
  handler_ok c1 -> handler_ok c2 ->
  (op1 = "Query" /\ op2 = "Mutation") \/ (op1 = "Mutation" /\ op2 = "Query") ->
  op = op1 \/ op = op2 ->
  bind_pass c1 op1 ds = Return s1 -> bind_pass c2 op2 s1 = Return s2 ->
  findIndex (is_object_named op) ds = Some oi -> ds !! oi = Some o ->
  fields o !! j = Some field ->
  ~ referenced op ds ->
  (forall ai a, find_args op field ds = Some ai -> ds !! ai = Some a ->
                ~ referenced (name a) ds) ->
  Evolves ds s2
  /\ field_at s2 oi j =
     Some match find_args op field ds with
          | Some ai => set_arguments (from_option fields [] (ds !! ai)) field
          | None => field
          end.
Proof.
  intros Hc1 Hc2 Hops Hop H1 H2 Hoi Ho Hj Hrop Hra.
  assert (op1 <> op2) as Hdiff by (destruct Hops as [[-> ->] | [-> ->]]; done).
  assert (op1 = "Query" \/ op1 = "Mutation") as Hop1 by (destruct Hops as [[-> _] | [-> _]]; auto).
  assert (op2 = "Query" \/ op2 = "Mutation") as Hop2 by (destruct Hops as [[_ ->] | [_ ->]]; auto).
  assert (rtc update ds s1) as Hu1 by by apply (bind_pass_updates c1 Hc1 op1).
  assert (rtc update s1 s2) as Hu2 by by apply (bind_pass_updates c2 Hc2 op2).
  pose proof (updates_Evolves _ _ Hu1) as Hev1.
  split; [apply updates_Evolves; by etrans|].
  assert (name o = op) as Hname.
  { apply findIndex_lookup in Hoi as (o' & Ho' & Hp).
    assert (o' = o) as -> by congruence.
    by apply andb_true_iff in Hp as [_ ?%String.eqb_eq]. }
  assert (field_at ds oi j = Some field) as Hfield.
  { unfold field_at. by rewrite Ho. }
  destruct Hop as [-> | ->].
  - rewrite (bind_pass_other c2 Hc2 op2 s1 s2 oi j); [|
      |done].
    + apply (pass_field c1 Hc1 ds ds s1 op1 oi j field); auto using Evolves_refl.
    + intros d Hd. destruct (Evolves_lookup _ _ _ _ Hev1 Ho) as (d' & Hd' & Hn & _).
      congruence.
  - apply (pass_field c2 Hc2 ds s1 s2 op2 oi j field); auto.
    + by apply (findIndex_object_stable ds s1 op2 oi).
    + rewrite (bind_pass_other c1 Hc1 op1 ds s1 oi j); [done| |done].
      intros d Hd. congruence.
Qed.

End Binding.

(** * Fields after a run *)

Section FieldsAfterRun.

Implicit Types ds s parsed out : list DefinitionNode.

(** The field [j] of the operation type [op] in the output of a run. *)
Lemma rewrite_field parsed out op oi o j field :
  Copy1.rewrite parsed = Return out \/ Copy2.rewrite parsed = Return out ->
  op = "Query" \/ op = "Mutation" ->
  findIndex (is_object_named op) (reposition parsed) = Some oi ->
  reposition parsed !! oi = Some o ->
  fields o !! j = Some field ->
  ~ referenced op (reposition parsed) ->
  (forall ai a, find_args op field (reposition parsed) = Some ai ->
                reposition parsed !! ai = Some a ->
                ~ referenced (name a) (reposition parsed)) ->
  exists o', o' ∈ out /\ name o' = op /\ kind o' = ObjectTypeDefinition
             /\ fields o' !! j =
                Some match find_args op field (reposition parsed) with
                     | Some ai =>
                         set_arguments
                           (from_option fields [] (reposition parsed !! ai)) field
                     | None => field
                     end.
Proof.
  intros Hrun Hop Hoi Ho Hj Hrop Hra.
  assert (exists s2 (pruned : DefinitionNode -> bool),
             Evolves (reposition parsed) s2
             /\ field_at s2 oi j =
                Some match find_args op field (reposition parsed) with
                     | Some ai =>
                         set_arguments
                           (from_option fields [] (reposition parsed !! ai)) field
                     | None => field
                     end
             /\ out = List.filter (fun d => negb (pruned d)) s2
             /\ (forall d, name d = op -> pruned d = false))
    as (s2 & pruned & Hev & Hfield & -> & Hkeep).
  { destruct Hrun as [Hrun | Hrun].
    - apply Copy1_rewrite_inv in Hrun as (s1 & s2 & H1 & H2 & ->).
      exists s2, Copy1.pruned. rewrite Copy1_prune_filter.
      destruct (two_passes_field Copy1.change_argument_type Copy1.keep_argument_type
                  "Mutation" "Query" (reposition parsed) s1 s2 op oi o j field)
        as [Hev Hfield]; auto using Copy1_change_ok, Copy1_keep_ok.
      { destruct Hop; auto. }
      split; [done|]. split; [done|]. split; [done|].
      intros d Hd. unfold Copy1.pruned. rewrite Hd. by destruct Hop as [-> | ->].
    - apply Copy2_rewrite_inv in Hrun as (s1 & s2 & H1 & H2 & ->).
      exists s2, Copy2.pruned. rewrite Copy2_prune_filter.
      destruct (two_passes_field Copy2.change_argument_type Copy2.change_argument_type
                  "Query" "Mutation" (reposition parsed) s1 s2 op oi o j field)
        as [Hev Hfield]; auto using Copy2_change_ok.
      split; [done|]. split; [done|]. split; [done|].
      intros d Hd. unfold Copy2.pruned. rewrite Hd. by destruct Hop as [-> | ->]. }
  destruct (Evolves_lookup _ _ _ _ Hev Ho) as (o' & Ho' & Hn & Hk & _).
  assert (name o = op) as Hname.
  { apply findIndex_lookup in Hoi as (o0 & Ho0 & Hp).
    assert (o0 = o) as -> by congruence.
    by apply andb_true_iff in Hp as [_ ?%String.eqb_eq]. }
  assert (kind o = ObjectTypeDefinition) as Hkind.
  { apply findIndex_lookup in Hoi as (o0 & Ho0 & Hp).
    assert (o0 = o) as -> by congruence.
    by apply andb_true_iff in Hp as [?%bool_decide_eq_true _]. }
  exists o'. split; [|split; [congruence|split]].
  - apply elem_of_filter_negb. split; [by apply list_elem_of_lookup_2 in Ho'|].
    apply Hkeep. congruence.
  - destruct Hk as [-> | (_ & _ & Hr)]; [done|]. by rewrite Hname in Hr.
  - unfold field_at in Hfield. by rewrite Ho' in Hfield.
Qed.

(** X15: after a run that returns, the field of [Query] or [Mutation] for
    which the pass finds a helper (the first object type whose name equals
    [<op><field>Args] up to letter case) carries the helper's fields, in
    their order, as its argument list; its name and type are unchanged and
    whatever arguments it had are replaced.  This holds in both revisions
    for both operation types, when no field type of the document wraps the
    name of the operation type or of the helper. *)
Theorem bound_field_gets_helper_fields :
  forall parsed out op oi o j field ai a,
    Copy1.rewrite parsed = Return out \/ Copy2.rewrite parsed = Return out ->
    op = "Query" \/ op = "Mutation" ->
    findIndex (is_object_named op) (reposition parsed) = Some oi ->
    reposition parsed !! oi = Some o ->
    fields o !! j = Some field ->
    find_args op field (reposition parsed) = Some ai ->
    reposition parsed !! ai = Some a ->
    ~ referenced op (reposition parsed) ->
    ~ referenced (name a) (reposition parsed) ->
    exists o', o' ∈ out /\ name o' = op /\ kind o' = ObjectTypeDefinition
               /\ fields o' !! j = Some (set_arguments (fields a) field).
Proof.
  intros parsed out op oi o j field ai a Hrun Hop Hoi Ho Hj Hai Ha Hrop Hra.
  destruct (rewrite_field parsed out op oi o j field) as (o' & Hin & Hn & Hk & Hf); auto.
  { intros ai' a' Hai' Ha'. assert (ai' = ai) as -> by congruence.
    assert (a' = a) as -> by congruence. done. }
  exists o'. rewrite Hai, Ha in Hf. auto.
Qed.

Lemma bound_field_gets_helper_fields_witness :
  exists o', o' ∈ user_document_rewritten /\ name o' = "Query"
             /\ kind o' = ObjectTypeDefinition
             /\ fields o' !! 0%nat
                = Some (set_arguments [plain_field "id" (NonNullType (NamedType "ID"))]
                          (plain_field "user" (NamedType "User"))).
Proof.
  apply (bound_field_gets_helper_fields user_document user_document_rewritten "Query"
           2%nat (object_type "Query" [plain_field "user" (NamedType "User")])
           0%nat (plain_field "user" (NamedType "User"))
           1%nat (object_type "QueryuserArgs"
                    [plain_field "id" (NonNullType (NamedType "ID"))])).
  - right. reflexivity.
  - by left.
  - reflexivity.
  - reflexivity.
  - reflexivity.
  - reflexivity.
  - reflexivity.
  - apply not_referenced. reflexivity.
  - apply not_referenced. reflexivity.
Defined.

(** X16: a field of [Query] or [Mutation] for which no object type is named
    [<op><field>Args], up to letter case, comes out of a run exactly as it
    went in, arguments included. *)
Theorem unbound_field_unchanged :
  forall parsed out op oi o j field,
    Copy1.rewrite parsed = Return out \/ Copy2.rewrite parsed = Return out ->
    op = "Query" \/ op = "Mutation" ->
    findIndex (is_object_named op) (reposition parsed) = Some oi ->
    reposition parsed !! oi = Some o ->
    fields o !! j = Some field ->
    find_args op field (reposition parsed) = None ->
    ~ referenced op (reposition parsed) ->
    exists o', o' ∈ out /\ name o' = op /\ kind o' = ObjectTypeDefinition
               /\ fields o' !! j = Some field.
Proof.
  intros parsed out op oi o j field Hrun Hop Hoi Ho Hj Hai Hrop.
  destruct (rewrite_field parsed out op oi o j field) as (o' & Hin & Hn & Hk & Hf); auto.
  { intros ai a Hai'. congruence. }
  exists o'. rewrite Hai in Hf. auto.
Qed.

Lemma unbound_field_unchanged_witness :
  exists o', o' ∈ [Address_type; getUser_bound (NamedType "Address")]
             /\ name o' = "Query" /\ kind o' = ObjectTypeDefinition
             /\ fields o' !! 0%nat
                = Some {| fname := "getUser";
                          farguments := [plain_field "addr" (NamedType "Address")];
                          ftype := NamedType "User" |}.
Proof.
  apply (unbound_field_unchanged [Address_type; getUser_bound (NamedType "Address")]
           _ "Query" 1%nat (getUser_bound (NamedType "Address")) 0%nat).
  - right. reflexivity.
  - by left.
  - reflexivity.
  - reflexivity.
  - reflexivity.
  - reflexivity.
  - apply not_referenced. reflexivity.
Defined.

End FieldsAfterRun.

(** * Where the first revision gives up *)

Section FirstRevisionThrows.

Implicit Types ds s parsed out : list DefinitionNode.

Section Generic.

Variable change :
  list DefinitionNode -> FieldDefinition -> Completion (list DefinitionNode).
Hypothesis change_ok : handler_ok change.

(** A pass that returns has run the handler on every argument field of a
    helper it bound, on an array that evolved from [ds]. *)
Lemma pass_runs_handler ds s1 op oi o j field ai a arg :
  op = "Query" \/ op = "Mutation" ->
  findIndex (is_object_named op) ds = Some oi -> ds !! oi = Some o ->
  fields o !! j = Some field ->
  find_args op field ds = Some ai -> ds !! ai = Some a ->
  ~ referenced (name a) ds ->
  arg ∈ fields a ->
  bind_pass change op ds = Return s1 ->
  exists sc sd, Evolves ds sc /\ change sc arg = Return sd.
Proof.
  intros Hop Hoi Ho Hj Hai Ha Hra Harg. unfold bind_pass. rewrite Hoi, Ho. simpl.
  intros Hloop.
  assert (name o = op) as Hname.
  { apply findIndex_lookup in Hoi as (o' & Ho' & Hp).
    assert (o' = o) as -> by congruence.
    by apply andb_true_iff in Hp as [_ ?%String.eqb_eq]. }
  assert ((j, field) ∈ imap pair (fields o)) as Hin.
  { by apply (elem_of_lookup_imap_2 pair). }
  destruct (forEach_split _ _ _ _ _ Hin Hloop)
    as (fs1 & fs2 & sa & sb & _ & H1 & Hbody & _).
  assert (Evolves ds sa) as Hev_a.
  { apply updates_Evolves.
    apply (bind_fields_update _ change_ok op oi _ fs1); [done| |done]. eauto. }
  destruct (Evolves_lookup _ _ _ _ Hev_a Ho) as (oa & Hoa & Hnoa & _).
  destruct (Evolves_lookup _ _ _ _ Hev_a Ha) as (aa & Haa & _ & _ & Hfa).
  destruct (helper_not_operation _ _ _ _ _ Hop Hai Ha) as [HnQ HnM].
  assert (fields aa = fields a) as Hfields
    by (destruct Hfa as [? | [[? | ?] _]]; done).
  unfold bind_field in Hbody.
  rewrite (find_args_stable ds sa op field field ai a Hev_a Hai Ha Hra eq_refl),
    Haa in Hbody.
  simpl in Hbody. rewrite Hfields in Hbody.
  destruct (forEach_split _ _ _ _ _ Harg Hbody)
    as (args1 & args2 & sc & sd & Hargs & Hc & Hchange & _).
  exists sc, sd. split; [|done].
  eapply Evolves_trans; [done|]. eapply Evolves_trans.
  - apply (set_field_arguments_Evolves sa oi oa); [done|]. by rewrite Hnoa, Hname.
  - apply updates_Evolves, (handlers_update _ change_ok _ args1); [|done].
    intros arg' m Hin' Hm.
    apply (Evolves_referenced sa);
      [apply (set_field_arguments_Evolves sa oi oa); [done|]; by rewrite Hnoa, Hname|].
    exists aa, arg'. rewrite Hfields, Hargs.
    split; [by apply list_elem_of_lookup_2 in Haa|]. split; [|done].
    apply elem_of_app. by left.
Qed.

End Generic.

(** X11: the first revision cannot rewrite a document in which a field of
    [Mutation] has a helper with an argument field whose type is not a name
    under one wrapper, such as the nullable [id: ID] that an optional
    member is lowered to: the run throws a [TypeError] (and writes
    nothing), provided no field type wraps the helper's own name. *)
Theorem Copy1_rewrite_throws_on_bare_argument_type :
  forall parsed oi o j field ai a arg,
    findIndex (is_object_named "Mutation") (reposition parsed) = Some oi ->
    reposition parsed !! oi = Some o ->
    fields o !! j = Some field ->
    find_args "Mutation" field (reposition parsed) = Some ai ->
    reposition parsed !! ai = Some a ->
    arg ∈ fields a ->
    wrapped_name (ftype arg) = None ->
    ~ referenced (name a) (reposition parsed) ->
    Copy1.rewrite parsed = Throw TypeError.
Proof.
  intros parsed oi o j field ai a arg Hoi Ho Hj Hai Ha Harg Hw Hra.
  destruct (Copy1.rewrite parsed) as [out|e] eqn:Hrun;
    [|by rewrite (Copy1_rewrite_throws_only parsed e Hrun)].
  exfalso. apply Copy1_rewrite_inv in Hrun as (s1 & s2 & H1 & _ & _).
  destruct (pass_runs_handler _ Copy1_change_ok (reposition parsed) s1 "Mutation"
              oi o j field ai a arg) as (sc & sd & Hev & Hchange); auto.
  destruct (Evolves_lookup _ _ _ _ Hev Ha) as (aa & Haa & _ & Hk & _).
  destruct (find_args_helper_like _ _ _ _ _ Hai Ha) as [Hka _].
  assert (Copy1.change_argument_type sc arg = Throw TypeError) as Hthrow.
  { apply (proj1 (Copy1_change_cases sc arg)). split; [done|].
    exists aa. split; [by apply list_elem_of_lookup_2 in Haa|].
    destruct Hk as [-> | (_ & _ & Hr)]; done. }
  congruence.
Qed.

End FirstRevisionThrows.

Lemma Copy1_rewrite_throws_on_bare_argument_type_witness :
  Copy1.rewrite
    [object_type "Mutation" [plain_field "addUser" (NamedType "User")];
     object_type "MutationaddUserArgs"
       [plain_field "name" (NonNullType (NamedType "String"));
        plain_field "nick" (NamedType "String")]]
  = Throw TypeError.
Proof.
  apply (Copy1_rewrite_throws_on_bare_argument_type _
           0%nat (object_type "Mutation" [plain_field "addUser" (NamedType "User")])
           0%nat (plain_field "addUser" (NamedType "User"))
           1%nat (object_type "MutationaddUserArgs"
                    [plain_field "name" (NonNullType (NamedType "String"));
                     plain_field "nick" (NamedType "String")])
           (plain_field "nick" (NamedType "String"))).
  - reflexivity.
  - reflexivity.
  - reflexivity.
  - reflexivity.
  - reflexivity.
  - apply list_elem_of_In. simpl. auto.
  - reflexivity.
  - apply not_referenced. reflexivity.
Defined.
